(** * mailgenerator: a shallow embedding of [app.py]

    The helpers of the Streamlit e-mail generator ([parse_subject_body],
    [generate_with_gemini], the CV text extractors, [download_txt], the
    prompt template and the Firestore history operations) are embedded as
    Rocq functions, and the properties the specification states about them
    are proved.

    Python values are modelled as follows.
    - [str] is a sequence of Unicode code points: [list N].
    - [bytes] is [list byte].
    - [int] is [Z].
    - a raised exception is the [Raise] branch of [outcome]; [try/except]
      is a [match] on it.
    - code that logs, shows a message or talks to Firestore runs in the
      monad [M] over a [world]. *)

From Stdlib Require Import NArith ZArith Strings.String Strings.Ascii Strings.Byte DecimalString Lia.
From stdpp Require Import base option list gmap.

Local Open Scope N_scope.

(** ** Python strings *)

Abbreviation pystr := (list N).

(** A string literal of the source, as code points (ASCII literals only). *)
Definition lit (s : string) : pystr :=
  map N_of_ascii (list_ascii_of_string s).

(** Truth value of a string: [if s:]. *)
Definition truthy (s : pystr) : bool :=
  match s with [] => false | _ :: _ => true end.

(** [str.isspace] on one code point: the Unicode white space that the
    argument-less [str.strip] removes. *)
Definition isspace (c : N) : bool :=
  ((9 <=? c) && (c <=? 13)) || ((28 <=? c) && (c <=? 31)) || (c =? 32)
  || (c =? 0x85) || (c =? 0xA0) || (c =? 0x1680)
  || ((0x2000 <=? c) && (c <=? 0x200A))
  || (c =? 0x2028) || (c =? 0x2029) || (c =? 0x202F) || (c =? 0x205F)
  || (c =? 0x3000).

Fixpoint lstrip (s : pystr) : pystr :=
  match s with
  | c :: s' => if isspace c then lstrip s' else s
  | [] => []
  end.

Definition rstrip (s : pystr) : pystr := rev (lstrip (rev s)).

(** [s.strip()] *)
Definition strip (s : pystr) : pystr := rstrip (lstrip s).

(** [s.startswith(p)] *)
Fixpoint starts_with (p s : pystr) : bool :=
  match p, s with
  | [], _ => true
  | a :: p', b :: s' => (a =? b) && starts_with p' s'
  | _ :: _, [] => false
  end.

(** [s.find(sub)]: the index of the first occurrence, if any. *)
Fixpoint find (sub s : pystr) : option nat :=
  if starts_with sub s then Some 0%nat
  else match s with
       | [] => None
       | _ :: s' => S <$> find sub s'
       end.

(** [sub in s] *)
Definition contains (sub s : pystr) : bool :=
  match find sub s with Some _ => true | None => false end.

(** [s.replace(old, new)]: every non-overlapping occurrence, scanning from
    the left.  [skip] counts the characters of a matched occurrence that are
    still to be dropped. *)
Fixpoint replace_from (old new : pystr) (skip : nat) (s : pystr) : pystr :=
  match s with
  | [] => []
  | c :: s' =>
      match skip with
      | S k => replace_from old new k s'
      | O =>
          if starts_with old s
          then new ++ replace_from old new (length old - 1) s'
          else c :: replace_from old new 0 s'
      end
  end.

Definition replace (old new s : pystr) : pystr :=
  match old with
  | [] => new ++ flat_map (λ c, c :: new) s
  | _ :: _ => replace_from old new 0 s
  end.

(** [sep.join(parts)] *)
Fixpoint join (sep : pystr) (parts : list pystr) : pystr :=
  match parts with
  | [] => []
  | [p] => p
  | p :: ps => p ++ sep ++ join sep ps
  end.

(** ** Exceptions *)

(** An exception object: its class name and what [str(e)] gives. *)
Record exn := Exn { exn_class : pystr; exn_str : pystr }.

Inductive outcome (A : Type) : Type :=
| Ok (a : A)
| Raise (e : exn).
Arguments Ok {A} a.
Arguments Raise {A} e.

#[export] Instance outcome_ret : MRet outcome := λ A a, Ok a.
#[export] Instance outcome_bind : MBind outcome := λ A B f m,
  match m with
  | Ok a => f a
  | Raise e => Raise e
  end.

Definition ValueError (msg : string) : exn := Exn (lit "ValueError") (lit msg).

(** [s.split(sep, 1)]: at most one split, at the first occurrence of [sep];
    an empty separator is a [ValueError]. *)
Definition split1 (sep s : pystr) : outcome (list pystr) :=
  match sep with
  | [] => Raise (ValueError "empty separator")
  | _ :: _ =>
      match find sep s with
      | None => Ok [s]
      | Some i => Ok [take i s; drop (i + length sep) s]
      end
  end.

(** Tuple unpacking [a, b = parts]. *)
Definition unpack2 (parts : list pystr) : outcome (pystr * pystr) :=
  match parts with
  | [a; b] => Ok (a, b)
  | [] | [_] => Raise (ValueError "not enough values to unpack (expected 2)")
  | _ => Raise (ValueError "too many values to unpack (expected 2)")
  end.

(** ** Response parser *)

Definition SUBJECT : pystr := lit "Subject:".
Definition BODY : pystr := lit "Body:".
Definition GENERATED_EMAIL : pystr := lit "Generated Email".

(** The [try] block of [parse_subject_body]: [Ok (Some r)] is [return r],
    [Ok None] is falling out of the block. *)
Definition parse_try (text : pystr) : outcome (option (pystr * pystr)) :=
  parts ← split1 BODY text;
  '(before_body, after_subject) ← unpack2 parts;
  let subject := strip (replace SUBJECT [] before_body) in
  let body := strip after_subject in
  if truthy subject && truthy body then Ok (Some (subject, body))
  else Ok None.

Definition parse_subject_body (text : pystr) : outcome (pystr * pystr) :=
  let fallback := Ok (GENERATED_EMAIL, strip text) in
  if contains SUBJECT text && contains BODY text then
    match parse_try text with
    | Ok (Some r) => Ok r
    | Ok None => fallback
    | Raise _ => fallback
    end
  else fallback.

(** ** The world: log, user interface, Firestore

    [logged] holds the messages given to [logger.error], [shown] the
    messages put on the page, [users] the documents of the Firestore
    collection [users] (the [emails] array of each), [faults] what the next
    Firestore requests will do ([Some e]: the request raises [e]; an
    exhausted list: every further request goes through), and [calls] the
    library calls made so far. *)

(** An e-mail object: the dictionary [{"subject": ..., "body": ...}]. *)
Abbreviation email_obj := (gmap pystr pystr).

Inductive ui_event :=
| StError (msg : pystr)
| StSidebarError (msg : pystr).

Inductive call :=
| CallGenerateContent
| CallPdfReader
| CallExtractText
| CallDocument
| CallFirestoreGet (id : pystr)
| CallFirestoreSet (id : pystr)
| CallFirestoreUpdate (id : pystr).

Record world := World {
  logged : list pystr;
  shown : list ui_event;
  users : gmap pystr (list email_obj);
  faults : list (option exn);
  calls : list call
}.

Definition with_logged (w : world) (l : list pystr) : world :=
  World l (shown w) (users w) (faults w) (calls w).
Definition with_shown (w : world) (s : list ui_event) : world :=
  World (logged w) s (users w) (faults w) (calls w).
Definition with_users (w : world) (u : gmap pystr (list email_obj)) : world :=
  World (logged w) (shown w) u (faults w) (calls w).
Definition with_faults (w : world) (f : list (option exn)) : world :=
  World (logged w) (shown w) (users w) f (calls w).
Definition with_calls (w : world) (c : list call) : world :=
  World (logged w) (shown w) (users w) (faults w) c.

(** Computations that may raise and that act on the world. *)
Definition M (A : Type) : Type := world → outcome A * world.

#[export] Instance M_ret : MRet M := λ A a w, (Ok a, w).
#[export] Instance M_bind : MBind M := λ A B f m w,
  match m w with
  | (Ok a, w') => f a w'
  | (Raise e, w') => (Raise e, w')
  end.

(** [try: m  except Exception as e: h e] *)
Definition try_except {A} (m : M A) (h : exn → M A) : M A := λ w,
  match m w with
  | (Ok a, w') => (Ok a, w')
  | (Raise e, w') => h e w'
  end.

(** A library call: it is recorded, and its outcome returned or raised. *)
Definition library {A} (c : call) (r : outcome A) : M A := λ w,
  (r, with_calls w (calls w ++ [c])).

(** An outcome computed without touching the world. *)
Definition lift {A} (r : outcome A) : M A := λ w, (r, w).

(** [logger.error(msg)] *)
Definition logger_error (msg : pystr) : M unit := λ w,
  (Ok (), with_logged w (logged w ++ [msg])).

(** [st.error(msg)] and [st.sidebar.error(msg)] *)
Definition st_error (msg : pystr) : M unit := λ w,
  (Ok (), with_shown w (shown w ++ [StError msg])).
Definition st_sidebar_error (msg : pystr) : M unit := λ w,
  (Ok (), with_shown w (shown w ++ [StSidebarError msg])).

Definition NL : pystr := [10].

(** ** Generation client *)

(** The argument of [model.generate_content]: a prompt or a list of parts. *)
Inductive content :=
| Prompt (p : pystr)
| Parts (ps : list pystr).

(** A response of the service; reading [response.text] may itself raise. *)
Record response := Response { text : outcome pystr }.

Definition fallback_generation (prompt : pystr) : pystr :=
  lit "(Fallback response)" ++ NL ++ NL
  ++ lit "Could not connect to Gemini. Prompt was:" ++ NL ++ prompt.

Definition EMPTY_RESPONSE : pystr :=
  lit "(" ++ [0x26A0] ++ lit " Empty response from Gemini)".

Definition FALLBACK_MARKER : pystr := lit "Fallback response".

(** What [generate_with_gemini] hands to the service. *)
Definition gemini_request (prompt : pystr) (system_instruction : option pystr)
  : content :=
  match system_instruction with
  | Some (c :: si) => Parts [c :: si; prompt]
  | Some [] | None => Prompt prompt
  end.

Section Gemini.
(** [model.generate_content] of the [google.generativeai] client. *)
Variable generate_content : content → outcome response.

Definition generate_with_gemini (prompt : pystr)
    (system_instruction : option pystr) : M pystr :=
  try_except
    (response ←
       library CallGenerateContent
         (generate_content (gemini_request prompt system_instruction));
     t ← lift (text response);
     mret (if truthy t then t else EMPTY_RESPONSE))
    (λ e,
       logger_error (lit "Gemini API call failed: " ++ exn_str e);;
       mret (fallback_generation
               (prompt ++ NL ++ NL ++ lit "(Note: Fallback used due to: "
                ++ exn_str e ++ lit ")"))).
End Gemini.

(** ** Document text extractor *)

Section Extractor.
(** The uploaded file, a page of a PDF, [PyPDF2.PdfReader(file).pages],
    [page.extract_text()] and the paragraph texts of
    [docx.Document(file)]. *)
Variables file page : Type.
Variable PdfReader : file → outcome (list page).
Variable extract_text : page → outcome pystr.
Variable Document : file → outcome (list pystr).

(** The [for page in reader.pages] loop, [texts] being the list built so
    far. *)
Fixpoint pdf_pages (pages : list page) (texts : list pystr)
  : M (list pystr) :=
  match pages with
  | [] => mret texts
  | p :: rest =>
      texts' ←
        try_except
          (t ← library CallExtractText (extract_text p);
           mret (if truthy t then texts ++ [t] else texts))
          (λ _, mret texts);
      pdf_pages rest texts'
  end.

Definition extract_text_from_pdf (f : file) : M pystr :=
  try_except
    (pages ← library CallPdfReader (PdfReader f);
     texts ← pdf_pages pages [];
     mret (join (lit " ") texts))
    (λ e,
       logger_error (lit "PDF extraction failed: " ++ exn_str e);;
       mret []).

Definition extract_text_from_docx (f : file) : M pystr :=
  try_except
    (paragraphs ← library CallDocument (Document f);
     mret (join (lit " ") paragraphs))
    (λ e,
       logger_error (lit "DOCX extraction failed: " ++ exn_str e);;
       mret []).

Definition analyze_cv (f : file) (file_type : pystr) : M pystr :=
  if bool_decide (file_type = lit "pdf") then extract_text_from_pdf f
  else if bool_decide (file_type ∈ [lit "doc"; lit "docx"])
       then extract_text_from_docx f
       else mret [].
End Extractor.

(** ** Encodings used by the download link *)

Definition byte_of_N (n : N) : byte := default x00 (Byte.of_N n).

Definition UnicodeEncodeError : exn :=
  Exn (lit "UnicodeEncodeError") (lit "surrogates not allowed").
Definition UnicodeDecodeError : exn :=
  Exn (lit "UnicodeDecodeError") (lit "invalid start or continuation byte").

(** A code point that UTF-8 can encode: below 0x110000 and no surrogate. *)
Definition is_scalar (c : N) : bool :=
  (c <? 0xD800) || ((0xDFFF <? c) && (c <? 0x110000)).

(** The UTF-8 bytes of one code point. *)
Definition utf8_char (c : N) : outcome (list byte) :=
  if c <? 0x80 then Ok [byte_of_N c]
  else if c <? 0x800 then
    Ok [byte_of_N (0xC0 + c / 64); byte_of_N (0x80 + c mod 64)]
  else if negb (is_scalar c) then Raise UnicodeEncodeError
  else if c <? 0x10000 then
    Ok [byte_of_N (0xE0 + c / 4096); byte_of_N (0x80 + (c / 64) mod 64);
        byte_of_N (0x80 + c mod 64)]
  else
    Ok [byte_of_N (0xF0 + c / 262144); byte_of_N (0x80 + (c / 4096) mod 64);
        byte_of_N (0x80 + (c / 64) mod 64); byte_of_N (0x80 + c mod 64)].

(** [s.encode()] (UTF-8, strict) *)
Fixpoint str_encode (s : pystr) : outcome (list byte) :=
  match s with
  | [] => Ok []
  | c :: s' =>
      bs ← utf8_char c;
      rest ← str_encode s';
      Ok (bs ++ rest)
  end.

(** The payload of a continuation byte (0x80..0xBF). *)
Definition continuation (b : byte) : option N :=
  let n := Byte.to_N b in
  if (0x80 <=? n) && (n <=? 0xBF) then Some (n - 0x80) else None.

(** [b.decode()] (UTF-8, strict).  [fuel] bounds the number of characters;
    the length of the input is always enough. *)
Fixpoint bytes_decode_fuel (fuel : nat) (bs : list byte) : outcome pystr :=
  match fuel, bs with
  | _, [] => Ok []
  | O, _ :: _ => Raise UnicodeDecodeError
  | S fuel', b0 :: bs1 =>
      let n0 := Byte.to_N b0 in
      if n0 <? 0x80 then
        rest ← bytes_decode_fuel fuel' bs1; Ok (n0 :: rest)
      else if n0 <? 0xE0 then
        match bs1 with
        | b1 :: bs2 =>
            match continuation b1 with
            | Some c1 =>
                let c := (n0 - 0xC0) * 64 + c1 in
                if (0xC0 <=? n0) && (0x80 <=? c) then
                  rest ← bytes_decode_fuel fuel' bs2; Ok (c :: rest)
                else Raise UnicodeDecodeError
            | None => Raise UnicodeDecodeError
            end
        | [] => Raise UnicodeDecodeError
        end
      else if n0 <? 0xF0 then
        match bs1 with
        | b1 :: b2 :: bs3 =>
            match continuation b1, continuation b2 with
            | Some c1, Some c2 =>
                let c := (n0 - 0xE0) * 4096 + c1 * 64 + c2 in
                if (0x800 <=? c) && is_scalar c then
                  rest ← bytes_decode_fuel fuel' bs3; Ok (c :: rest)
                else Raise UnicodeDecodeError
            | _, _ => Raise UnicodeDecodeError
            end
        | _ => Raise UnicodeDecodeError
        end
      else
        match bs1 with
        | b1 :: b2 :: b3 :: bs4 =>
            match continuation b1, continuation b2, continuation b3 with
            | Some c1, Some c2, Some c3 =>
                let c := (n0 - 0xF0) * 262144 + c1 * 4096 + c2 * 64 + c3 in
                if (0x10000 <=? c) && (c <? 0x110000) then
                  rest ← bytes_decode_fuel fuel' bs4; Ok (c :: rest)
                else Raise UnicodeDecodeError
            | _, _, _ => Raise UnicodeDecodeError
            end
        | _ => Raise UnicodeDecodeError
        end
  end.

Definition bytes_decode (bs : list byte) : outcome pystr :=
  bytes_decode_fuel (length bs) bs.

(** The base64 alphabet: the character of a 6-bit value. *)
Definition b64_char (n : N) : byte :=
  byte_of_N (if n <? 26 then 65 + n
             else if n <? 52 then 71 + n
             else if n <? 62 then n - 4
             else if n =? 62 then 43
             else 47).

Definition b64_pad : byte := "="%byte.

(** [base64.b64encode(bs)] *)
Fixpoint b64encode (bs : list byte) : list byte :=
  match bs with
  | [] => []
  | [a] =>
      let n := Byte.to_N a * 65536 in
      [b64_char (n / 262144); b64_char ((n / 4096) mod 64); b64_pad; b64_pad]
  | [a; b] =>
      let n := Byte.to_N a * 65536 + Byte.to_N b * 256 in
      [b64_char (n / 262144); b64_char ((n / 4096) mod 64);
       b64_char ((n / 64) mod 64); b64_pad]
  | a :: b :: c :: rest =>
      let n := Byte.to_N a * 65536 + Byte.to_N b * 256 + Byte.to_N c in
      b64_char (n / 262144) :: b64_char ((n / 4096) mod 64)
      :: b64_char ((n / 64) mod 64) :: b64_char (n mod 64) :: b64encode rest
  end.

(** The 6-bit value of a base64 character. *)
Definition b64_value (c : byte) : option N :=
  let n := Byte.to_N c in
  if (65 <=? n) && (n <=? 90) then Some (n - 65)
  else if (97 <=? n) && (n <=? 122) then Some (n - 71)
  else if (48 <=? n) && (n <=? 57) then Some (n + 4)
  else if n =? 43 then Some 62
  else if n =? 47 then Some 63
  else None.

(** Base64 decoding (RFC 4648, padded, no stray characters): what a reader
    of the download link does with the payload. *)
Fixpoint b64decode (cs : list byte) : option (list byte) :=
  match cs with
  | [] => Some []
  | c1 :: c2 :: c3 :: c4 :: rest =>
      v1 ← b64_value c1;
      v2 ← b64_value c2;
      if Byte.eqb c4 b64_pad then
        match rest with
        | [] =>
            if Byte.eqb c3 b64_pad then
              Some [byte_of_N ((v1 * 262144 + v2 * 4096) / 65536)]
            else
              v3 ← b64_value c3;
              let n := v1 * 262144 + v2 * 4096 + v3 * 64 in
              Some [byte_of_N (n / 65536); byte_of_N ((n / 256) mod 256)]
        | _ :: _ => None
        end
      else
        v3 ← b64_value c3;
        v4 ← b64_value c4;
        tail ← b64decode rest;
        let n := v1 * 262144 + v2 * 4096 + v3 * 64 + v4 in
        Some (byte_of_N (n / 65536) :: byte_of_N ((n / 256) mod 256)
              :: byte_of_N (n mod 256) :: tail)
  | _ => None
  end.

(** ** Download link *)

Definition QUOTE : pystr := [34].

Definition LINK_HEAD : pystr :=
  lit "<a href=" ++ QUOTE ++ lit "data:file/txt;base64,".
Definition LINK_TAIL : pystr :=
  QUOTE ++ lit " download=" ++ QUOTE ++ lit "email.txt" ++ QUOTE ++ lit ">"
  ++ [0x1F4BE] ++ lit " Download as TXT</a>".

(** The text of the exported file. *)
Definition download_content (subject body : pystr) : pystr :=
  lit "Subject: " ++ subject ++ NL ++ NL ++ body.

Definition download_txt (subject body : pystr) : outcome pystr :=
  let content := download_content subject body in
  encoded ← str_encode content;
  b64 ← bytes_decode (b64encode encoded);
  Ok (LINK_HEAD ++ b64 ++ LINK_TAIL).

(** ** Prompt builder *)

(** The values of the form that the e-mail prompt uses. *)
Record form := Form {
  student_name : pystr;
  recipient : pystr;
  purpose : pystr;
  details : pystr;
  tone : pystr;
  style : pystr;
  formality_level : Z;
  language : pystr;
  cv_text : pystr
}.

Definition with_cv_text (f : form) (cv : pystr) : form :=
  Form (student_name f) (recipient f) (purpose f) (details f) (tone f)
       (style f) (formality_level f) (language f) cv.

(** [str(n)] of an integer. *)
Definition str_int (n : Z) : pystr := lit (NilZero.string_of_int (Z.to_int n)).

(** The indentation of the template's lines inside the source file. *)
Definition INDENT : pystr := lit "            ".

Definition CV_LABEL : pystr :=
  lit "The student has attached their CV. Relevant CV details: ".

(** The expression in braces on the CV line of the template. *)
Definition cv_clause (cv : pystr) : pystr :=
  if truthy cv then CV_LABEL ++ take 1000 cv else [].

(** The f-string assigned to [prompt] when "Generate Email" is pressed. *)
Definition prompt (f : form) : pystr :=
  NL ++ INDENT
  ++ lit "You are an AI assistant that generates professional emails for students and early-career professionals."
  ++ NL ++ NL
  ++ INDENT ++ lit "Generate an email with:" ++ NL
  ++ INDENT ++ lit "- Subject line" ++ NL
  ++ INDENT ++ lit "- Body text" ++ NL
  ++ NL
  ++ INDENT ++ lit "Student Name: " ++ student_name f ++ NL
  ++ INDENT ++ lit "Recipient: " ++ recipient f ++ NL
  ++ INDENT ++ lit "Purpose: " ++ purpose f ++ NL
  ++ INDENT ++ lit "Additional Context: " ++ details f ++ NL
  ++ INDENT ++ lit "Tone: " ++ tone f ++ NL
  ++ INDENT ++ lit "Writing Style: " ++ style f ++ NL
  ++ INDENT ++ lit "Formality Level: " ++ str_int (formality_level f)
  ++ lit "/100" ++ NL
  ++ INDENT ++ lit "Language: " ++ language f ++ NL
  ++ INDENT ++ cv_clause (cv_text f) ++ NL
  ++ NL
  ++ INDENT ++ lit "Format output as:" ++ NL
  ++ INDENT ++ lit "Subject: ..." ++ NL
  ++ INDENT ++ lit "Body: ..." ++ NL
  ++ INDENT.

(** ** User record store *)

Definition NotFound : exn := Exn (lit "NotFound") (lit "No document to update").

(** A Firestore request: it is recorded, then it fails if the world says
    so, and otherwise acts on the documents. *)
Definition firestore_request {A} (c : call) (k : M A) : M A := λ w,
  let w1 := with_calls w (calls w ++ [c]) in
  match faults w1 with
  | Some e :: fs => (Raise e, with_faults w1 fs)
  | None :: fs => k (with_faults w1 fs)
  | [] => k w1
  end.

(** The value written to the [emails] field by [ref.update]. *)
Inductive field_value :=
| ArrayUnion (xs : list email_obj)
| ArrayRemove (xs : list email_obj)
| ArrayValue (xs : list email_obj).

(** [ArrayUnion]: each given element that the array does not hold yet is
    added at its end. *)
Definition array_union (old xs : list email_obj) : list email_obj :=
  foldl (λ acc x, if bool_decide (x ∈ acc) then acc else acc ++ [x]) old xs.

(** [ArrayRemove]: every instance of each given element is removed. *)
Definition array_remove (old xs : list email_obj) : list email_obj :=
  filter (λ y, y ∉ xs) old.

Definition apply_field_value (old : list email_obj) (v : field_value)
  : list email_obj :=
  match v with
  | ArrayUnion xs => array_union old xs
  | ArrayRemove xs => array_remove old xs
  | ArrayValue xs => xs
  end.

(** [ref.get()]: the [emails] of the document, [None] when
    [snap.exists] is false. *)
Definition doc_get (ref : pystr) : M (option (list email_obj)) :=
  firestore_request (CallFirestoreGet ref) (λ w, (Ok (users w !! ref), w)).

(** [ref.set({"emails": emails})] *)
Definition doc_set (ref : pystr) (emails : list email_obj) : M unit :=
  firestore_request (CallFirestoreSet ref)
    (λ w, (Ok (), with_users w (<[ref := emails]> (users w)))).

(** [ref.update({"emails": v})]: a missing document is an error. *)
Definition doc_update (ref : pystr) (v : field_value) : M unit :=
  firestore_request (CallFirestoreUpdate ref)
    (λ w, match users w !! ref with
          | None => (Raise NotFound, w)
          | Some old =>
              (Ok (), with_users w (<[ref := apply_field_value old v]> (users w)))
          end).

(** The reference is the path of the document: the user's e-mail address. *)
Definition ensure_user_doc (user_email : pystr) : M pystr :=
  let ref := user_email in
  snap ← doc_get ref;
  (match snap with
   | None => doc_set ref []
   | Some _ => mret ()
   end);;
  mret ref.

Definition CROSS : pystr := [0x274C].

Definition save_email (user_email : pystr) (email : email_obj) : M unit :=
  ref ← ensure_user_doc user_email;
  try_except
    (doc_update ref (ArrayUnion [email]))
    (λ e,
       logger_error (lit "Firestore save failed: " ++ exn_str e);;
       st_sidebar_error (CROSS ++ lit " Failed to save email to Firestore.")).

Definition remove_email (user_email : pystr) (email : email_obj) : M unit :=
  ref ← ensure_user_doc user_email;
  try_except
    (doc_update ref (ArrayRemove [email]))
    (λ e,
       logger_error (lit "Firestore remove failed: " ++ exn_str e);;
       st_error (CROSS ++ lit " Failed to delete email.")).

(** The e-mail object that the page saves after a generation. *)
Definition email_of (subject body : pystr) : email_obj :=
  {[ lit "subject" := subject; lit "body" := body ]}.

(** What a read of the record gives: the stored sequence, or the empty
    one when there is no document. *)
Definition emails_of (w : world) (user_email : pystr) : list email_obj :=
  default [] (users w !! user_email).

(** Every Firestore request still to come goes through. *)
Definition store_reliable (w : world) : bool :=
  forallb (λ f, match f with None => true | Some _ => false end) (faults w).

(** ** Specification vocabulary *)

(** [sub] occurs in [s] as a substring. *)
Definition occurs_in (sub s : pystr) : Prop :=
  ∃ pre post, s = pre ++ sub ++ post.

(** [s = head ++ sep ++ tail] is the split of [s] at the first occurrence
    of [sep]. *)
Definition first_split (sep s head tail : pystr) : Prop :=
  s = head ++ sep ++ tail ∧
  ∀ head' tail', s = head' ++ sep ++ tail' → (length head ≤ length head')%nat.

Definition initial_world : world := World [] [] ∅ [] [].

(** The texts of the pages whose extraction does not raise, in page
    order. *)
Definition extracted_texts {page : Type} (extract_text : page → outcome pystr)
    (pages : list page) : list pystr :=
  omap (λ p, match extract_text p with
             | Ok t => Some t
             | Raise _ => None
             end) pages.

(** A call that leaves log and page alone and after which the store is
    still reliable. *)
Definition undisturbed (w w' : world) : Prop :=
  logged w' = logged w ∧ shown w' = shown w ∧ store_reliable w' = true.

(** A three-page PDF whose second page holds no text. *)
Definition blank_page_pdf : unit → outcome (list pystr) :=
  λ _, Ok [lit "a"; []; lit "b"].

(** A store that holds one e-mail of one user. *)
Definition one_email_world : world :=
  World [] [] {[ lit "a@b.pk" := [email_of (lit "Hi") (lit "Hello")] ]} [] [].

(** The same store when the second request to come (the update, the
    document being there) is refused by the service. *)
Definition refused_write_world : world :=
  with_faults one_email_world
    [None; Some (Exn (lit "ServiceUnavailable") (lit "503 unavailable"))].

(** The same store when it cannot be reached at all. *)
Definition unreachable_world : world :=
  with_faults one_email_world
    [Some (Exn (lit "ServiceUnavailable") (lit "503 unavailable"))].

(** A string that UTF-8 can encode: each of its code points is a Unicode
    scalar value. *)
Definition encodable (s : pystr) : Prop := Forall (λ c, is_scalar c = true) s.

(** ** Subject line suggestions *)

(** The characters at which [str.splitlines] ends a line. *)
Definition is_linebreak (c : N) : bool :=
  ((10 <=? c) && (c <=? 13)) || ((28 <=? c) && (c <=? 30))
  || (c =? 0x85) || (c =? 0x2028) || (c =? 0x2029).

(** [s.splitlines()]: [cur] is the line read so far, and [after_cr] tells
    that the character before was a carriage return, so that a line feed
    now belongs to the same line end. *)
Fixpoint splitlines_from (after_cr : bool) (cur s : pystr) : list pystr :=
  match s with
  | [] => match cur with [] => [] | _ :: _ => [cur] end
  | c :: s' =>
      if after_cr && (c =? 10) then splitlines_from false cur s'
      else if is_linebreak c then cur :: splitlines_from (c =? 13) [] s'
      else splitlines_from false (cur ++ [c]) s'
  end.

Definition splitlines (s : pystr) : list pystr := splitlines_from false [] s.

(** [s.strip(chars)] *)
Fixpoint lstrip_chars (chars s : pystr) : pystr :=
  match s with
  | c :: s' => if bool_decide (c ∈ chars) then lstrip_chars chars s' else s
  | [] => []
  end.

Definition strip_chars (chars s : pystr) : pystr :=
  rev (lstrip_chars chars (rev (lstrip_chars chars s))).

(** The argument of [line.strip]: a dash, a bullet and a space. *)
Definition BULLETS : pystr := [45; 0x2022; 32].

(** The loop over the lines of the suggestions: the texts given to
    [st.markdown], in order. *)
Fixpoint suggestion_items_of (lines : list pystr) : list pystr :=
  match lines with
  | [] => []
  | line :: rest =>
      let line := strip_chars BULLETS line in
      if truthy line
      then (lit "- " ++ line) :: suggestion_items_of rest
      else suggestion_items_of rest
  end.

Definition suggestion_items (suggestions_raw : pystr) : list pystr :=
  suggestion_items_of (splitlines suggestions_raw).

(** The indentation of the lines of the second template. *)
Definition INDENT8 : pystr := lit "        ".

(** The f-string assigned to [subj_prompt]. *)
Definition subj_prompt (f : form) : pystr :=
  NL ++ INDENT8
  ++ lit "Generate 5 professional subject line suggestions for this email purpose:"
  ++ NL
  ++ INDENT8 ++ purpose f ++ lit ", Context: " ++ details f
  ++ lit ", Tone: " ++ tone f ++ lit ", Language: " ++ language f ++ NL
  ++ INDENT8.

(** ** The "Generate Email" button *)

(** What the page shows after a generation. *)
Record generated := Generated {
  shown_subject : pystr;
  shown_body : pystr;
  download_link : pystr;
  suggestions : list pystr
}.

Section Generate.
Variable generate_content : content → outcome response.

(** The body of [if st.sidebar.button("Generate Email")], for the form [f]
    and the user of the session.  The widgets that only display (spinner,
    success notices, markdown, text area) do not act on the world; what they
    display is returned. *)
Definition generate_email (f : form) (user : pystr) : M generated :=
  raw ← generate_with_gemini generate_content (prompt f) None;
  '(subject, body_text) ← lift (parse_subject_body raw);
  link ← lift (download_txt subject body_text);
  save_email user (email_of subject body_text);;
  suggestions_raw ← generate_with_gemini generate_content (subj_prompt f) None;
  mret (Generated subject body_text link (suggestion_items suggestions_raw)).
End Generate.

(** ** Saved e-mails *)








(** ** Vocabulary of the further properties *)

(** The layout that the prompt asks the service for. *)
Definition requested_format (subject body : pystr) : pystr :=
  lit "Subject: " ++ subject ++ NL ++ lit "Body: " ++ body.

(** The text that [generate_with_gemini] returns for [prompt] when the
    service raises [e]. *)
Definition fallback_text (prompt : pystr) (e : exn) : pystr :=
  fallback_generation
    (prompt ++ NL ++ NL ++ lit "(Note: Fallback used due to: "
     ++ exn_str e ++ lit ")").


(** A character of the base64 alphabet, or the padding. *)
Definition is_b64_char (c : N) : bool :=
  ((65 <=? c) && (c <=? 90)) || ((97 <=? c) && (c <=? 122))
  || ((48 <=? c) && (c <=? 57)) || (c =? 43) || (c =? 47) || (c =? 61).

(** The requests made by one call of [save_email] or [remove_email] pass
    the read of the document (and its creation) but not the update. *)
Definition update_refused (w : world) (user_email : pystr) (e : exn) : Prop :=
  ∃ fs, match users w !! user_email with
        | Some _ => faults w = None :: Some e :: fs
        | None => faults w = None :: None :: Some e :: fs
        end.

Definition surrogate_service : content → outcome response :=
  λ _, Ok (Response (Ok [0xD800])).

Definition blank_form : form := Form [] [] [] [] [] [] 70 [] [].

(** ** Session *)

(** The truth value of [st.session_state["user"]]. *)
Definition logged_in (user : option pystr) : bool :=
  match user with
  | Some (_ :: _) => true
  | Some [] | None => false
  end.

(** The entries of the side bar menu. *)
Definition menu (user : option pystr) : list pystr :=
  if logged_in user then [lit "Generate Email"; lit "Logout"]
  else [lit "Login"; lit "Signup"].

(** One run of the script, as the user drives it: the entry chosen in the
    menu, the two text inputs and whether the button of the form is
    pressed. *)
Record visit := Visit {
  choice : pystr;
  email_input : pystr;
  password_input : pystr;
  button : bool
}.

Section Auth.
(** [auth.create_user_with_email_and_password] and
    [auth.sign_in_with_email_and_password] of the identity service. *)
Variable create_user : pystr → pystr → outcome unit.
Variable sign_in : pystr → pystr → outcome unit.

(** The signup, login and logout branches of the script: the value of
    [st.session_state["user"]] after the run.  Notices of success and the
    rerun of the script do not act on the world. *)
Definition auth_section (user : option pystr) (v : visit) : M (option pystr) :=
  if bool_decide (choice v = lit "Signup") && negb (logged_in user) then
    if button v then
      try_except
        (lift (create_user (email_input v) (password_input v));;
         mret user)
        (λ e, st_error (CROSS ++ lit " " ++ exn_str e);; mret user)
    else mret user
  else if bool_decide (choice v = lit "Login") && negb (logged_in user) then
    if button v then
      try_except
        (lift (sign_in (email_input v) (password_input v));;
         mret (Some (email_input v)))
        (λ e, st_error (CROSS ++ lit " " ++ exn_str e);; mret user)
    else mret user
  else if bool_decide (choice v = lit "Logout") && logged_in user then
    mret None
  else mret user.

(** The runs of a session, one after the other. *)
Fixpoint session (user : option pystr) (visits : list visit)
  : M (option pystr) :=
  match visits with
  | [] => mret user
  | v :: rest =>
      user' ← auth_section user v;
      session user' rest
  end.
End Auth.

(** An identity service that knows one account. *)
Definition one_account : pystr → pystr → outcome unit :=
  λ email password,
    if bool_decide (email = lit "a@b.pk") && bool_decide (password = lit "secret")
    then Ok ()
    else Raise (Exn (lit "HTTPError") (lit "INVALID_LOGIN_CREDENTIALS")).

(** * Properties *)

(** ** Strings *)

Lemma truthy_nonempty (s : pystr) : truthy s = true ↔ s ≠ [].
Proof. destruct s; simpl; split; congruence. Qed.

Lemma starts_with_spec (p s : pystr) :
  starts_with p s = true ↔ ∃ t, s = p ++ t.
Proof.
  revert s. induction p as [|a p IH]; intros s; simpl.
  - split; [eauto | done].
  - destruct s as [|b s].
    + split; [done | intros [t Ht]; discriminate Ht].
    + rewrite andb_true_iff, N.eqb_eq, IH. split.
      * intros [-> [t ->]]. eauto.
      * intros [t Ht]. injection Ht as -> ->. eauto.
Qed.

Lemma find_unfold (sub s : pystr) :
  find sub s =
  if starts_with sub s then Some 0%nat
  else match s with [] => None | _ :: s' => S <$> find sub s' end.
Proof. destruct s; reflexivity. Qed.

Lemma find_Some (sub s : pystr) (i : nat) :
  find sub s = Some i →
  first_split sub s (take i s) (drop (i + length sub) s) ∧ length (take i s) = i.
Proof.
  revert i. induction s as [|c s IH]; intros i; rewrite find_unfold.
  - destruct (starts_with sub []) eqn:Hp; [|done].
    intros [= <-]. apply starts_with_spec in Hp as [t Ht].
    destruct sub; [|done]. destruct t; [|done].
    repeat split. intros h' t' _. simpl. lia.
  - destruct (starts_with sub (c :: s)) eqn:Hp.
    + intros [= <-]. apply starts_with_spec in Hp as [t Ht].
      repeat split.
      * simpl take. rewrite Ht at 1. simpl. f_equal.
        rewrite Ht. by rewrite drop_app_length.
      * intros h' t' _. simpl. lia.
    + destruct (find sub s) as [j|] eqn:Hf; [|done].
      intros [= <-]. destruct (IH j eq_refl) as [[Heq Hmin] Hlen].
      repeat split.
      * simpl. by rewrite <- Heq.
      * intros [|c' h'] t' Hs.
        -- assert (starts_with sub (c :: s) = true) as Hq
             by (apply starts_with_spec; exists t'; exact Hs).
           congruence.
        -- injection Hs as -> Hs. specialize (Hmin _ _ Hs).
           simpl. lia.
      * simpl. by rewrite Hlen.
Qed.

Lemma find_None (sub s : pystr) : find sub s = None → ¬ occurs_in sub s.
Proof.
  induction s as [|c s IH]; rewrite find_unfold.
  - destruct (starts_with sub []) eqn:Hp; [done|].
    intros _ (pre & post & Hs). destruct pre; [|done].
    assert (starts_with sub [] = true) as Hq
      by (apply starts_with_spec; exists post; exact Hs).
    congruence.
  - destruct (starts_with sub (c :: s)) eqn:Hp; [done|].
    destruct (find sub s) eqn:Hf; [done|]. intros _ (pre & post & Hs).
    destruct pre as [|c' pre].
    + assert (starts_with sub (c :: s) = true) as Hq
        by (apply starts_with_spec; exists post; exact Hs).
      congruence.
    + injection Hs as -> Hs. apply IH; [done|]. by exists pre, post.
Qed.

(** The [in] test of the source decides substring occurrence. *)
Lemma contains_spec (sub s : pystr) : contains sub s = true ↔ occurs_in sub s.
Proof.
  unfold contains. destruct (find sub s) as [i|] eqn:Hf.
  - split; [intros _|done]. apply find_Some in Hf as [[Heq _] _].
    eexists _, _. exact Heq.
  - split; [done|]. intros H. by apply find_None in Hf.
Qed.

Lemma contains_false (sub s : pystr) :
  contains sub s = false ↔ ¬ occurs_in sub s.
Proof.
  rewrite <- contains_spec. destruct (contains sub s); split; congruence.
Qed.

(** [replace] leaves a string without occurrence alone, and consumes an
    occurrence at the front. *)
Lemma replace_from_absent (old new s : pystr) :
  ¬ occurs_in old s → replace_from old new 0 s = s.
Proof.
  induction s as [|c s IH]; intros H; [done|]. cbn [replace_from].
  destruct (starts_with old (c :: s)) eqn:Hp.
  - apply starts_with_spec in Hp as [t Ht]. destruct H. by exists [], t.
  - f_equal. apply IH. intros (pre & post & ->). apply H.
    by exists (c :: pre), post.
Qed.

Lemma replace_absent (old new s : pystr) :
  old ≠ [] → ¬ occurs_in old s → replace old new s = s.
Proof.
  intros Hold H. destruct old; [done|]. by apply replace_from_absent.
Qed.

Lemma replace_from_skip (old new t s : pystr) :
  replace_from old new (length t) (t ++ s) = replace_from old new 0 s.
Proof. induction t as [|c t IH]; [done|]. exact IH. Qed.

Lemma replace_front (old new s : pystr) :
  old ≠ [] → replace old new (old ++ s) = new ++ replace old new s.
Proof.
  destruct old as [|c old]; [done|]. intros _. unfold replace.
  cbn [app replace_from].
  rewrite (proj2 (starts_with_spec (c :: old) (c :: old ++ s)))
    by (by exists s).
  cbn [length]. rewrite Nat.sub_1_r. cbn [Nat.pred].
  by rewrite replace_from_skip.
Qed.

(** ** White space *)

Lemma lstrip_empty (s : pystr) :
  lstrip s = [] ↔ Forall (λ c, isspace c = true) s.
Proof.
  induction s as [|c s IH]; cbn [lstrip].
  - split; [constructor|done].
  - destruct (isspace c) eqn:Hc.
    + rewrite IH. split; [by constructor|]. by intros [_ ?]%Forall_cons.
    + split; [done|]. intros [? _]%Forall_cons. congruence.
Qed.

Lemma lstrip_head (s t : pystr) (c : N) : lstrip s = c :: t → isspace c = false.
Proof.
  induction s as [|x s IH]; cbn [lstrip]; [done|].
  destruct (isspace x) eqn:Hx; [done|]. by intros [= <- _].
Qed.

Lemma lstrip_spaces (s : pystr) :
  Forall (λ c, isspace c = true) (lstrip s) ↔ Forall (λ c, isspace c = true) s.
Proof.
  split.
  - intros H. apply lstrip_empty. destruct (lstrip s) as [|c t] eqn:E; [done|].
    apply lstrip_head in E. apply Forall_cons in H as [H _]. congruence.
  - intros H. apply lstrip_empty in H. rewrite H. constructor.
Qed.

Lemma rev_empty {A} (l : list A) : rev l = [] ↔ l = [].
Proof.
  split; [|by intros ->]. intros H. by rewrite <- (rev_involutive l), H.
Qed.

Lemma Forall_rev_iff {A} (P : A → Prop) (l : list A) :
  Forall P (rev l) ↔ Forall P l.
Proof.
  split; intros H; [rewrite <- (rev_involutive l)|]; by apply Forall_rev.
Qed.

(** A text is stripped to nothing exactly when it is white space only. *)
Lemma strip_empty (s : pystr) :
  strip s = [] ↔ Forall (λ c, isspace c = true) s.
Proof.
  unfold strip, rstrip.
  by rewrite rev_empty, lstrip_empty, Forall_rev_iff, lstrip_spaces.
Qed.

Lemma not_all_spaces (s : pystr) :
  ¬ Forall (λ c, isspace c = true) s ↔ Exists (λ c, isspace c = false) s.
Proof.
  induction s as [|c s IH].
  - split; [intros H; destruct H; constructor | intros H; inversion H].
  - rewrite Forall_cons, Exists_cons, <- IH. destruct (isspace c); split.
    + intros H. right. intros Hs. by apply H.
    + intros [?|H] [_ Hs]; [done | by apply H].
    + intros _. by left.
    + by intros _ [? _].
Qed.

Lemma strip_nonempty (s : pystr) :
  strip s ≠ [] ↔ Exists (λ c, isspace c = false) s.
Proof. by rewrite strip_empty, not_all_spaces. Qed.

(** ** Response parser *)

Lemma BODY_unfold : BODY = [66; 111; 100; 121; 58].
Proof. reflexivity. Qed.

(** Without both markers the parser does not enter its [try] block. *)
Lemma parse_without_markers (raw : pystr) :
  contains SUBJECT raw && contains BODY raw = false →
  parse_subject_body raw = Ok (GENERATED_EMAIL, strip raw).
Proof. intros H. unfold parse_subject_body. by rewrite H. Qed.

(** With both markers the result is decided by the two candidates cut at
    the position that [find] gives for ["Body:"]. *)
Lemma parse_with_markers (raw : pystr) (i : nat) :
  contains SUBJECT raw = true →
  find BODY raw = Some i →
  parse_subject_body raw =
  Ok (let subject := strip (replace SUBJECT [] (take i raw)) in
      let body := strip (drop (i + length BODY) raw) in
      if truthy subject && truthy body then (subject, body)
      else (GENERATED_EMAIL, strip raw)).
Proof.
  intros Hs Hf. unfold parse_subject_body, parse_try, split1, contains.
  fold (contains SUBJECT raw). rewrite Hs, Hf. rewrite BODY_unfold at 1.
  cbn [andb mbind outcome_bind unpack2].
  destruct (truthy (strip (replace SUBJECT [] (take i raw)))
            && truthy (strip (drop (i + length BODY) raw))); reflexivity.
Qed.

(** The parser never raises. *)
Lemma parse_subject_body_total (raw : pystr) :
  ∃ subject body, parse_subject_body raw = Ok (subject, body).
Proof.
  unfold parse_subject_body.
  destruct (contains SUBJECT raw && contains BODY raw); [|eauto].
  destruct (parse_try raw) as [[[subject body]|]|e]; eauto.
Qed.

(** Whatever branch is taken, a non-empty body can only come with the
    guard of the [try] block or from the stripped text. *)
Lemma parse_subject_body_cases (raw subject body : pystr) :
  parse_subject_body raw = Ok (subject, body) →
  (subject ≠ [] ∧ body ≠ []) ∨ (subject = GENERATED_EMAIL ∧ body = strip raw).
Proof.
  unfold parse_subject_body.
  destruct (contains SUBJECT raw && contains BODY raw).
  - destruct (parse_try raw) as [[[s b]|]|e] eqn:Ht.
    + intros [= -> ->]. left. revert Ht. unfold parse_try.
      destruct (split1 BODY raw) as [parts|]; [|done]. cbn [mbind outcome_bind].
      destruct (unpack2 parts) as [[before after]|]; [|done].
      cbn [mbind outcome_bind].
      destruct (truthy (strip (replace SUBJECT [] before))
                && truthy (strip after)) eqn:Hg; [|done].
      intros [= <- <-]. apply andb_true_iff in Hg as [H1 H2].
      by rewrite <- !truthy_nonempty.
    + intros [= <- <-]. by right.
    + intros [= <- <-]. by right.
  - intros [= <- <-]. by right.
Qed.

(** C1: for every string the parser returns a pair of strings and does not
    raise; and for a non-empty string that lacks the marker "Subject:" or
    lacks the marker "Body:" the pair is ("Generated Email", raw.strip()). *)
Theorem parse_subject_body_fallback (raw : pystr) :
  (∃ subject body, parse_subject_body raw = Ok (subject, body)) ∧
  (raw ≠ [] →
   ¬ occurs_in SUBJECT raw ∨ ¬ occurs_in BODY raw →
   parse_subject_body raw = Ok (GENERATED_EMAIL, strip raw)).
Proof.
  split; [apply parse_subject_body_total|].
  intros _ H. apply parse_without_markers, andb_false_iff.
  by rewrite !contains_false.
Qed.

Lemma parse_subject_body_fallback_witness :
  parse_subject_body (lit "Dear Sir, I am ill.")
  = Ok (GENERATED_EMAIL, strip (lit "Dear Sir, I am ill.")).
Proof.
  apply (proj2 (parse_subject_body_fallback (lit "Dear Sir, I am ill."))).
  - discriminate.
  - left. apply contains_false. vm_compute. reflexivity.
Defined.

(** C2: when the text holds both markers it is split at the first
    occurrence of "Body:"; the candidate subject is the head without the
    "Subject:" label, stripped, the candidate body is the stripped tail, and
    the pair of candidates is returned when both are non-empty (the
    fallback pair otherwise).  The two examples of the specification follow
    the rule: the first gives ("Hi", "Hello there"); in the second the head
    is empty, so the candidate subject is empty and the fallback pair is
    returned. *)
Theorem parse_subject_body_split :
  (∀ raw : pystr,
     occurs_in SUBJECT raw → occurs_in BODY raw →
     ∃ head tail,
       first_split BODY raw head tail ∧
       parse_subject_body raw =
       Ok (let subject := strip (replace SUBJECT [] head) in
           let body := strip tail in
           if truthy subject && truthy body then (subject, body)
           else (GENERATED_EMAIL, strip raw))) ∧
  parse_subject_body (lit "Subject: Hi" ++ NL ++ lit "Body: Hello there")
  = Ok (lit "Hi", lit "Hello there") ∧
  (first_split BODY (lit "Body: first Subject: second")
     [] (lit " first Subject: second") ∧
   parse_subject_body (lit "Body: first Subject: second")
   = Ok (GENERATED_EMAIL, lit "Body: first Subject: second")).
Proof.
  split; [|split; [by vm_compute|split; [|by vm_compute]]].
  - intros raw Hs Hb. apply contains_spec in Hs, Hb.
    unfold contains in Hb. destruct (find BODY raw) as [i|] eqn:Hf; [|done].
    exists (take i raw), (drop (i + length BODY) raw). split.
    + by apply find_Some.
    + by apply parse_with_markers.
  - apply (find_Some BODY (lit "Body: first Subject: second") 0).
    by vm_compute.
Qed.

Lemma parse_subject_body_split_witness :
  ∃ head tail,
    first_split BODY (lit "Subject: Leave Request" ++ NL ++ lit "Body: Dear Sir")
      head tail ∧
    parse_subject_body (lit "Subject: Leave Request" ++ NL ++ lit "Body: Dear Sir")
    = Ok (let subject := strip (replace SUBJECT [] head) in
          let body := strip tail in
          if truthy subject && truthy body then (subject, body)
          else (GENERATED_EMAIL,
                strip (lit "Subject: Leave Request" ++ NL ++ lit "Body: Dear Sir"))).
Proof.
  apply (proj1 parse_subject_body_split).
  - apply contains_spec. vm_compute. reflexivity.
  - apply contains_spec. vm_compute. reflexivity.
Defined.

(** C3 as stated fails: a text of white space only is not empty, and its
    body is. *)
Lemma parse_subject_body_blank_body :
  ¬ (∀ raw : pystr, raw ≠ [] →
       ∃ subject body,
         parse_subject_body raw = Ok (subject, body) ∧
         subject ≠ [] ∧ body ≠ []).
Proof.
  intros H. destruct (H (lit " ")) as (subject & body & Hp & _ & Hb); [done|].
  vm_compute in Hp. injection Hp as _ <-. by apply Hb.
Qed.

(** C3, amended: for every text that holds a character that is not white
    space (so that it is not empty after stripping) the parser returns two
    non-empty strings. *)
Theorem parse_subject_body_nonempty (raw : pystr) :
  Exists (λ c, isspace c = false) raw →
  ∃ subject body,
    parse_subject_body raw = Ok (subject, body) ∧ subject ≠ [] ∧ body ≠ [].
Proof.
  intros Hraw%strip_nonempty.
  destruct (parse_subject_body_total raw) as (subject & body & Hp).
  exists subject, body. split; [done|].
  destruct (parse_subject_body_cases _ _ _ Hp) as [[? ?]|[-> ->]]; [done|].
  split; [by vm_compute | done].
Qed.

Lemma parse_subject_body_nonempty_witness :
  ∃ subject body,
    parse_subject_body (lit "  Hello  ") = Ok (subject, body) ∧
    subject ≠ [] ∧ body ≠ [].
Proof.
  apply (parse_subject_body_nonempty (lit "  Hello  ")).
  apply strip_nonempty. vm_compute. discriminate.
Defined.

(** ** Generation client *)

(** Running the monad. *)
Ltac run_M :=
  unfold try_except, library, lift, logger_error, st_error, st_sidebar_error,
    mbind, mret, M_bind, M_ret;
  cbn beta iota.

Lemma occurs_in_middle (pre sub post : pystr) : occurs_in sub (pre ++ sub ++ post).
Proof. by exists pre, post. Qed.

Lemma fallback_generation_marker (prompt : pystr) :
  occurs_in FALLBACK_MARKER (fallback_generation prompt).
Proof. exists (lit "("), (lit ")" ++ NL ++ NL
    ++ lit "Could not connect to Gemini. Prompt was:" ++ NL ++ prompt).
  reflexivity.
Qed.

Lemma fallback_generation_prompt (prompt rest : pystr) :
  occurs_in prompt (fallback_generation (prompt ++ rest)).
Proof.
  exists (lit "(Fallback response)" ++ NL ++ NL
          ++ lit "Could not connect to Gemini. Prompt was:" ++ NL), rest.
  unfold fallback_generation. by rewrite <- !app_assoc.
Qed.

Section Gemini_properties.
Variable generate_content : content → outcome response.

(** What the adapter does when the service call raises [e]. *)
Lemma generate_with_gemini_except prompt system_instruction e w :
  generate_content (gemini_request prompt system_instruction) = Raise e ∨
  (∃ r, generate_content (gemini_request prompt system_instruction) = Ok r
        ∧ text r = Raise e) →
  generate_with_gemini generate_content prompt system_instruction w =
  (Ok (fallback_generation
         (prompt ++ NL ++ NL ++ lit "(Note: Fallback used due to: "
          ++ exn_str e ++ lit ")")),
   with_logged (with_calls w (calls w ++ [CallGenerateContent]))
     (logged w ++ [lit "Gemini API call failed: " ++ exn_str e])).
Proof.
  intros [H|(r & H & Hr)]; unfold generate_with_gemini; run_M; rewrite H.
  - reflexivity.
  - cbn beta iota. rewrite Hr. reflexivity.
Qed.

(** What the adapter does when the service answers with the text [t]. *)
Lemma generate_with_gemini_success prompt system_instruction r t w :
generate_content (gemini_request prompt system_instruction) = Ok r →
text r = Ok t →
generate_with_gemini generate_content prompt system_instruction w =
(Ok (if truthy t then t else EMPTY_RESPONSE),
 with_calls w (calls w ++ [CallGenerateContent])).
Proof.
intros H Hr. unfold generate_with_gemini. run_M. rewrite H.
cbn beta iota. rewrite Hr. reflexivity.
Qed.

(** C4: if the call to the generation service raises an exception (the
    request itself, or reading the text of its response), the adapter
    does not propagate it: it returns a non-empty string that contains the
    marker "Fallback response" and the prompt verbatim. *)
Theorem generate_with_gemini_fallback prompt system_instruction e w :
  generate_content (gemini_request prompt system_instruction) = Raise e ∨
  (∃ r, generate_content (gemini_request prompt system_instruction) = Ok r
        ∧ text r = Raise e) →
  ∃ s w',
    generate_with_gemini generate_content prompt system_instruction w
    = (Ok s, w') ∧
    s ≠ [] ∧ occurs_in FALLBACK_MARKER s ∧ occurs_in prompt s.
Proof.
  intros H. eexists _, _. split.
  - by apply generate_with_gemini_except.
  - split; [done|]. split.
    + apply fallback_generation_marker.
    + apply fallback_generation_prompt.
Qed.
End Gemini_properties.

Lemma generate_with_gemini_fallback_witness :
  ∃ s w',
    generate_with_gemini
      (λ _, Raise (Exn (lit "ResourceExhausted") (lit "429 quota exceeded")))
      (lit "Write an email") None initial_world
    = (Ok s, w') ∧
    s ≠ [] ∧ occurs_in FALLBACK_MARKER s ∧ occurs_in (lit "Write an email") s.
Proof.
  apply (generate_with_gemini_fallback
           (λ _, Raise (Exn (lit "ResourceExhausted") (lit "429 quota exceeded")))
           (lit "Write an email") None
           (Exn (lit "ResourceExhausted") (lit "429 quota exceeded"))
           initial_world).
  left. reflexivity.
Defined.

(** ** Document text extractor *)

Section Extractor_properties.
Variables file page : Type.
Variable PdfReader : file → outcome (list page).
Variable extract_text : page → outcome pystr.
Variable Document : file → outcome (list pystr).

(** The page loop never raises; it appends the non-empty texts of the
    pages that could be read, and only records the calls it made. *)
Lemma pdf_pages_spec (pages : list page) (texts : list pystr) (w : world) :
  pdf_pages page extract_text pages texts w =
  (Ok (texts ++ filter (λ t, t ≠ []) (extracted_texts extract_text pages)),
   with_calls w (calls w ++ replicate (length pages) CallExtractText)).
Proof.
  revert texts w. induction pages as [|p pages IH]; intros texts w.
  - cbn. rewrite !app_nil_r. by destruct w.
  - cbn [pdf_pages extracted_texts omap list_omap length replicate].
    run_M. fold (extracted_texts extract_text pages).
    destruct (extract_text p) as [t|e]; cbn beta iota.
    + rewrite IH. destruct t as [|c t]; cbn [truthy].
      * rewrite filter_cons_False by naive_solver. f_equal.
        cbn [with_calls calls logged shown users faults].
        by rewrite <- app_assoc.
      * rewrite filter_cons_True by done. rewrite <- app_assoc. f_equal.
        cbn [with_calls calls logged shown users faults].
        by rewrite <- app_assoc.
    + rewrite IH. f_equal.
      cbn [with_calls calls logged shown users faults].
      by rewrite <- app_assoc.
Qed.

Lemma extract_text_from_pdf_readable (f : file) (pages : list page) w :
  PdfReader f = Ok pages →
  extract_text_from_pdf file page PdfReader extract_text f w =
  (Ok (join (lit " ")
         (filter (λ t, t ≠ []) (extracted_texts extract_text pages))),
   with_calls w (calls w ++ CallPdfReader
                 :: replicate (length pages) CallExtractText)).
Proof.
  intros H. unfold extract_text_from_pdf. run_M. rewrite H. cbn beta iota.
  rewrite pdf_pages_spec. cbn [app]. f_equal.
  cbn [with_calls calls logged shown users faults].
  by rewrite <- app_assoc.
Qed.

Lemma extract_text_from_pdf_unreadable (f : file) (e : exn) w :
  PdfReader f = Raise e →
  extract_text_from_pdf file page PdfReader extract_text f w =
  (Ok [],
   with_logged (with_calls w (calls w ++ [CallPdfReader]))
     (logged w ++ [lit "PDF extraction failed: " ++ exn_str e])).
Proof. intros H. unfold extract_text_from_pdf. run_M. by rewrite H. Qed.

Lemma extract_text_from_docx_readable (f : file) (paragraphs : list pystr) w :
  Document f = Ok paragraphs →
  extract_text_from_docx file Document f w =
  (Ok (join (lit " ") paragraphs),
   with_calls w (calls w ++ [CallDocument])).
Proof. intros H. unfold extract_text_from_docx. run_M. by rewrite H. Qed.

Lemma extract_text_from_docx_unreadable (f : file) (e : exn) w :
  Document f = Raise e →
  extract_text_from_docx file Document f w =
  (Ok [],
   with_logged (with_calls w (calls w ++ [CallDocument]))
     (logged w ++ [lit "DOCX extraction failed: " ++ exn_str e])).
Proof. intros H. unfold extract_text_from_docx. run_M. by rewrite H. Qed.

(** C7, amended: extraction never raises; a document that cannot be
    opened gives the empty string, for PDF and for DOCX; for a readable
    PDF every page is tried, a page whose extraction raises is skipped,
    and the non-empty texts of the other pages are joined with single
    spaces (a page that yields the empty text adds nothing, not even a
    space). *)
Theorem extract_text_graceful (f : file) (w : world) :
  (∃ s w', extract_text_from_pdf file page PdfReader extract_text f w
           = (Ok s, w')) ∧
  (∃ s w', extract_text_from_docx file Document f w = (Ok s, w')) ∧
  (∀ e, PdfReader f = Raise e →
        (extract_text_from_pdf file page PdfReader extract_text f w).1
        = Ok []) ∧
  (∀ e, Document f = Raise e →
        (extract_text_from_docx file Document f w).1 = Ok []) ∧
  (∀ pages, PdfReader f = Ok pages →
        (extract_text_from_pdf file page PdfReader extract_text f w).1
        = Ok (join (lit " ")
                (filter (λ t, t ≠ [])
                   (extracted_texts extract_text pages)))).
Proof.
  repeat split.
  - destruct (PdfReader f) as [pages|e] eqn:H.
    + eexists _, _. by apply extract_text_from_pdf_readable.
    + eexists _, _. by apply extract_text_from_pdf_unreadable.
  - destruct (Document f) as [paragraphs|e] eqn:H.
    + eexists _, _. by apply extract_text_from_docx_readable.
    + eexists _, _. by apply extract_text_from_docx_unreadable.
  - intros e H. by rewrite (extract_text_from_pdf_unreadable _ _ _ H).
  - intros e H. by rewrite (extract_text_from_docx_unreadable _ _ _ H).
  - intros pages H. by rewrite (extract_text_from_pdf_readable _ _ _ H).
Qed.

(** C10: for a declared type other than "pdf", "doc" and "docx",
    [analyze_cv] returns the empty string and leaves the world as it was:
    no library call is made and nothing is logged. *)
Theorem analyze_cv_other_type (f : file) (file_type : pystr) (w : world) :
  file_type ∉ [lit "pdf"; lit "doc"; lit "docx"] →
  analyze_cv file page PdfReader extract_text Document f file_type w
  = (Ok [], w).
Proof.
  intros H. unfold analyze_cv.
  rewrite bool_decide_eq_false_2
    by (intros ->; apply H, list_elem_of_here).
  rewrite bool_decide_eq_false_2
    by (intros Hin; by apply H, list_elem_of_further).
  reflexivity.
Qed.
End Extractor_properties.

Lemma extract_text_graceful_witness :
  (extract_text_from_pdf unit pystr blank_page_pdf Ok tt initial_world).1
  = Ok (lit "a b").
Proof.
  apply (proj2 (proj2 (proj2 (proj2
    (extract_text_graceful unit pystr blank_page_pdf Ok (λ _, Ok [])
       tt initial_world))))
    [lit "a"; []; lit "b"]).
  reflexivity.
Defined.

(** C7 as stated fails: joining the texts of all the pages that were read
    would give "a  b" for [blank_page_pdf]; the code gives "a b". *)
Lemma extract_text_from_pdf_blank_page :
  ¬ (∀ (file page : Type) (PdfReader : file → outcome (list page))
       (extract_text : page → outcome pystr) (f : file) (w : world)
       (pages : list page),
       PdfReader f = Ok pages →
       (extract_text_from_pdf file page PdfReader extract_text f w).1
       = Ok (join (lit " ") (extracted_texts extract_text pages))).
Proof.
  intros H.
  specialize (H unit pystr blank_page_pdf Ok tt initial_world
                [lit "a"; []; lit "b"] eq_refl).
  vm_compute in H. discriminate H.
Qed.

Lemma analyze_cv_other_type_witness :
  analyze_cv unit pystr blank_page_pdf Ok (λ _, Ok []) tt (lit "txt")
    initial_world
  = (Ok [], initial_world).
Proof.
  apply (analyze_cv_other_type unit pystr blank_page_pdf Ok (λ _, Ok []) tt
           (lit "txt") initial_world).
  rewrite !not_elem_of_cons. repeat split; try discriminate.
  apply not_elem_of_nil.
Defined.

(** ** User record store *)

Lemma undisturbed_trans (w1 w2 w3 : world) :
  undisturbed w1 w2 → undisturbed w2 w3 → undisturbed w1 w3.
Proof. unfold undisturbed. intros (? & ? & ?) (? & ? & ?). split_and!; congruence. Qed.

(** On a reliable store a request runs its action. *)
Lemma firestore_request_reliable {A} (c : call) (k : M A) (w : world) :
  store_reliable w = true →
  ∃ w1, firestore_request c k w = k w1 ∧
        users w1 = users w ∧ undisturbed w w1.
Proof.
  destruct w as [l s u f cs]. unfold store_reliable, firestore_request.
  cbn [faults with_calls with_faults logged shown users calls].
  destruct f as [|[e|] fs]; cbn [forallb andb]; intros H; [|done|].
  - eexists. split; [reflexivity|]. by repeat split.
  - eexists. split; [reflexivity|]. by repeat split.
Qed.

Lemma doc_get_reliable (ref : pystr) (w : world) :
  store_reliable w = true →
  ∃ w', doc_get ref w = (Ok (users w !! ref), w') ∧
        users w' = users w ∧ undisturbed w w'.
Proof.
  intros H. unfold doc_get.
  destruct (firestore_request_reliable (CallFirestoreGet ref)
              (λ w0, (Ok (users w0 !! ref), w0)) w H) as (w1 & -> & Hu & Hq).
  exists w1. by rewrite Hu.
Qed.

Lemma doc_set_reliable (ref : pystr) (emails : list email_obj) (w : world) :
  store_reliable w = true →
  ∃ w', doc_set ref emails w = (Ok (), w') ∧
        users w' = <[ref := emails]> (users w) ∧ undisturbed w w'.
Proof.
  intros H. unfold doc_set.
  destruct (firestore_request_reliable (CallFirestoreSet ref)
              (λ w0, (Ok (), with_users w0 (<[ref := emails]> (users w0)))) w H)
    as (w1 & -> & Hu & Hq).
  eexists. split; [reflexivity|]. by rewrite <- Hu.
Qed.

Lemma doc_update_reliable (ref : pystr) (v : field_value)
    (old : list email_obj) (w : world) :
  store_reliable w = true →
  users w !! ref = Some old →
  ∃ w', doc_update ref v w = (Ok (), w') ∧
        users w' = <[ref := apply_field_value old v]> (users w) ∧
        undisturbed w w'.
Proof.
  intros H Hold. unfold doc_update.
  destruct (firestore_request_reliable (CallFirestoreUpdate ref)
    (λ w0, match users w0 !! ref with
           | None => (Raise NotFound, w0)
           | Some old0 =>
               (Ok (), with_users w0
                         (<[ref := apply_field_value old0 v]> (users w0)))
           end) w H) as (w1 & -> & Hu & Hq).
  rewrite Hu, Hold. eexists. split; [reflexivity|]. by rewrite <- Hu.
Qed.

(** After [ensure_user_doc] the document exists and holds what a read of
    the record gave before. *)
Lemma ensure_user_doc_reliable (user_email : pystr) (w : world) :
  store_reliable w = true →
  ∃ w', ensure_user_doc user_email w = (Ok user_email, w') ∧
        users w' !! user_email = Some (emails_of w user_email) ∧
        (∀ other, emails_of w' other = emails_of w other) ∧
        undisturbed w w'.
Proof.
  intros H. unfold ensure_user_doc, emails_of. unfold mbind, M_bind.
  destruct (doc_get_reliable user_email w H) as (w1 & -> & Hu1 & Hq1).
  destruct (users w !! user_email) as [old|] eqn:Hold.
  - cbn. exists w1. rewrite Hu1, Hold. split_and!; try done;
      intros other; by rewrite Hu1.
  - destruct (doc_set_reliable user_email [] w1 (proj2 (proj2 Hq1)))
      as (w2 & -> & Hu2 & Hq2).
    cbn. exists w2. rewrite Hu2, Hu1, lookup_insert_eq. split_and!; try done.
    + intros other. destruct (decide (user_email = other)) as [<-|Hne].
      * by rewrite lookup_insert_eq, Hold.
      * by rewrite lookup_insert_ne.
    + by eapply undisturbed_trans.
Qed.

(** One [ArrayUnion] or [ArrayRemove] update of the record, on a reliable
    store. *)
Lemma update_emails_reliable (user_email : pystr) (v : field_value)
    (h : exn → M unit) (w : world) :
  store_reliable w = true →
  ∃ w', (ref ← ensure_user_doc user_email;
         try_except (doc_update ref v) h) w = (Ok (), w') ∧
        emails_of w' user_email
        = apply_field_value (emails_of w user_email) v ∧
        (∀ other, other ≠ user_email → emails_of w' other = emails_of w other) ∧
        undisturbed w w'.
Proof.
  intros H. unfold mbind, M_bind.
  destruct (ensure_user_doc_reliable user_email w H)
    as (w1 & -> & Hdoc & Hsame & Hq1).
  unfold try_except.
  destruct (doc_update_reliable user_email v _ w1 (proj2 (proj2 Hq1)) Hdoc)
    as (w2 & -> & Hu2 & Hq2).
  exists w2. split_and!; try done.
  - unfold emails_of at 1. by rewrite Hu2, lookup_insert_eq.
  - intros other Hne. unfold emails_of at 1. rewrite Hu2, lookup_insert_ne by done.
    apply Hsame.
  - by eapply undisturbed_trans.
Qed.

Lemma array_union_one (old : list email_obj) (e : email_obj) :
  array_union old [e] = if bool_decide (e ∈ old) then old else old ++ [e].
Proof. reflexivity. Qed.

Lemma array_remove_one (old : list email_obj) (e : email_obj) :
  array_remove old [e] = filter (λ x, x ≠ e) old.
Proof.
  unfold array_remove. apply list_filter_iff. intros x.
  by rewrite list_elem_of_singleton.
Qed.


Lemma filter_ne_absent (e : email_obj) (l : list email_obj) :
  e ∉ l → filter (λ x, x ≠ e) l = l.
Proof.
  induction l as [|x l IH]; [done|]. rewrite not_elem_of_cons. intros [Hne Hl].
  rewrite filter_cons_True by congruence. f_equal. auto.
Qed.


Lemma remove_email_reliable (user_email : pystr) (e : email_obj) (w : world) :
  store_reliable w = true →
  ∃ w', remove_email user_email e w = (Ok (), w') ∧
        emails_of w' user_email = array_remove (emails_of w user_email) [e] ∧
        (∀ other, other ≠ user_email → emails_of w' other = emails_of w other) ∧
        undisturbed w w'.
Proof. apply (update_emails_reliable user_email (ArrayRemove [e])). Qed.






Lemma email_of_body (subject body : pystr) :
  email_of subject body !! lit "body" = Some body.
Proof.
  unfold email_of. rewrite lookup_insert_ne by discriminate.
  apply lookup_singleton_eq.
Qed.

Lemma email_of_subject (subject body : pystr) :
  email_of subject body !! lit "subject" = Some subject.
Proof. unfold email_of. apply lookup_insert_eq. Qed.

(** Two e-mail objects are equal only if their fields are. *)
Lemma email_of_inj (s1 b1 s2 b2 : pystr) :
  email_of s1 b1 = email_of s2 b2 → s1 = s2 ∧ b1 = b2.
Proof.
  intros H. split.
  - pose proof (email_of_subject s1 b1) as H1. rewrite H in H1.
    rewrite email_of_subject in H1. congruence.
  - pose proof (email_of_body s1 b1) as H1. rewrite H in H1.
    rewrite email_of_body in H1. congruence.
Qed.

(** Removing an e-mail whose body differs from the stored one, by one
    character or more, leaves the stored one in place. *)
Lemma remove_email_near_miss (user_email subject body body' : pystr) (w : world) :
  store_reliable w = true →
  body ≠ body' →
  emails_of w user_email = [email_of subject body] →
  ∃ w', remove_email user_email (email_of subject body') w = (Ok (), w') ∧
        emails_of w' user_email = [email_of subject body].
Proof.
  intros H Hne Hw.
  destruct (remove_email_reliable user_email (email_of subject body') w H)
    as (w' & Hrun & He & _).
  exists w'. split; [done|]. rewrite He, array_remove_one, Hw.
  apply filter_ne_absent. rewrite list_elem_of_singleton. intros Heq.
  apply email_of_inj in Heq as [_ Heq]. congruence.
Qed.

Example remove_email_one_character :
  emails_of
    (remove_email (lit "a@b.pk") (email_of (lit "Hi") (lit "Hello!"))
       one_email_world).2 (lit "a@b.pk")
  = [email_of (lit "Hi") (lit "Hello")].
Proof. vm_compute. reflexivity. Qed.

(** A refused write is caught: [save_email] returns normally, nothing is
    stored, the failure is logged and shown in the side bar. *)
Example save_email_refused_write :
  let r := save_email (lit "a@b.pk") (email_of (lit "Re") (lit "Thanks"))
             refused_write_world in
  r.1 = Ok () ∧
  emails_of r.2 (lit "a@b.pk") = [email_of (lit "Hi") (lit "Hello")] ∧
  logged r.2 = [lit "Firestore save failed: 503 unavailable"] ∧
  shown r.2
  = [StSidebarError (CROSS ++ lit " Failed to save email to Firestore.")].
Proof. vm_compute. repeat split. Qed.

(** [ensure_user_doc] runs outside the [try]: when the store cannot be
    reached its exception leaves [save_email]. *)
Example save_email_unreachable :
  (save_email (lit "a@b.pk") (email_of (lit "Re") (lit "Thanks"))
     unreachable_world).1
  = Raise (Exn (lit "ServiceUnavailable") (lit "503 unavailable")).
Proof. vm_compute. reflexivity. Qed.

Example save_email_twice :
  emails_of
    (save_email (lit "a@b.pk") (email_of (lit "Hi") (lit "Hello"))
       (save_email (lit "a@b.pk") (email_of (lit "Hi") (lit "Hello"))
          initial_world).2).2 (lit "a@b.pk")
  = [email_of (lit "Hi") (lit "Hello")].
Proof. vm_compute. reflexivity. Qed.

(** ** Prompt builder *)

Lemma occurs_in_skip (x sub s : pystr) : occurs_in sub s → occurs_in sub (x ++ s).
Proof.
  intros (pre & post & ->). exists (x ++ pre), post. by rewrite <- app_assoc.
Qed.

Lemma occurs_in_here (a b rest : pystr) : occurs_in (a ++ b) (a ++ b ++ rest).
Proof. exists [], rest. by rewrite <- app_assoc. Qed.

Lemma occurs_in_here3 (a b c rest : pystr) :
  occurs_in (a ++ b ++ c) (a ++ b ++ c ++ rest).
Proof. exists [], rest. by rewrite <- !app_assoc. Qed.

(** Find a labelled field among the pieces of the template. *)
Ltac find_field :=
  unfold prompt;
  repeat first [ apply occurs_in_here3 | apply occurs_in_here
               | apply occurs_in_skip ].

(** The clause of the CV is empty exactly for an empty text, and holds no
    more than 1000 characters of the text. *)
Lemma cv_clause_empty (cv : pystr) : cv_clause cv = [] ↔ cv = [].
Proof. destruct cv; split; done. Qed.

Lemma cv_clause_length (cv : pystr) :
  (length (cv_clause cv) ≤ length CV_LABEL + 1000)%nat.
Proof.
  unfold cv_clause. destruct (truthy cv); [|cbn; lia].
  rewrite length_app, length_take. lia.
Qed.

(** C8: the prompt holds every labelled field of the form, the formality
    level as "X/100"; around the CV clause the prompt is the same for every
    document text; the clause is empty if and only if the text is empty, and
    otherwise it is its label followed by the first 1000 characters of the
    text (all of it when it is shorter). *)
Theorem prompt_contents (f : form) :
  occurs_in (lit "Student Name: " ++ student_name f) (prompt f) ∧
  occurs_in (lit "Recipient: " ++ recipient f) (prompt f) ∧
  occurs_in (lit "Purpose: " ++ purpose f) (prompt f) ∧
  occurs_in (lit "Additional Context: " ++ details f) (prompt f) ∧
  occurs_in (lit "Tone: " ++ tone f) (prompt f) ∧
  occurs_in (lit "Writing Style: " ++ style f) (prompt f) ∧
  occurs_in (lit "Formality Level: " ++ str_int (formality_level f)
             ++ lit "/100") (prompt f) ∧
  occurs_in (lit "Language: " ++ language f) (prompt f) ∧
  (∃ pre post, ∀ cv : pystr,
     prompt (with_cv_text f cv) =
     pre ++ match cv with
            | [] => []
            | _ :: _ => CV_LABEL ++ take 1000 cv
            end ++ post) ∧
  (∀ cv : pystr, prefix (take 1000 cv) cv ∧
         length (take 1000 cv) = Nat.min 1000 (length cv)).
Proof.
  split_and!; try find_field.
  - exists (NL ++ INDENT
      ++ lit "You are an AI assistant that generates professional emails for students and early-career professionals."
      ++ NL ++ NL
      ++ INDENT ++ lit "Generate an email with:" ++ NL
      ++ INDENT ++ lit "- Subject line" ++ NL
      ++ INDENT ++ lit "- Body text" ++ NL
      ++ NL
      ++ INDENT ++ lit "Student Name: " ++ student_name f ++ NL
      ++ INDENT ++ lit "Recipient: " ++ recipient f ++ NL
      ++ INDENT ++ lit "Purpose: " ++ purpose f ++ NL
      ++ INDENT ++ lit "Additional Context: " ++ details f ++ NL
      ++ INDENT ++ lit "Tone: " ++ tone f ++ NL
      ++ INDENT ++ lit "Writing Style: " ++ style f ++ NL
      ++ INDENT ++ lit "Formality Level: " ++ str_int (formality_level f)
      ++ lit "/100" ++ NL
      ++ INDENT ++ lit "Language: " ++ language f ++ NL
      ++ INDENT),
      (NL ++ NL
       ++ INDENT ++ lit "Format output as:" ++ NL
       ++ INDENT ++ lit "Subject: ..." ++ NL
       ++ INDENT ++ lit "Body: ..." ++ NL
       ++ INDENT).
    intros cv. unfold prompt, cv_clause.
    cbn [with_cv_text student_name recipient purpose details tone style
         formality_level language cv_text].
    rewrite <- !app_assoc. by destruct cv.
  - intros cv. split; [apply prefix_take|apply length_take].
Qed.

Example prompt_without_cv :
  ¬ occurs_in CV_LABEL
      (prompt (Form (lit "Ali") (lit "Dr Khan") (lit "Leave Application")
                 (lit "ill") (lit "Polite") (lit "Creative") 70
                 (lit "English") [])).
Proof. apply contains_false. vm_compute. reflexivity. Qed.

(** ** Base64 *)

(** Goals on quotients and remainders by constants. *)
Ltac divmod := zify; Z.to_euclidean_division_equations; lia.

Lemma byte_of_to_N (b : byte) : byte_of_N (Byte.to_N b) = b.
Proof. unfold byte_of_N. by rewrite Byte.of_to_N. Qed.

Lemma to_N_byte_of_N (n : N) : n < 256 → Byte.to_N (byte_of_N n) = n.
Proof.
  intros H. unfold byte_of_N. destruct (Byte.of_N n) as [b|] eqn:E.
  - by apply Byte.to_of_N.
  - apply Byte.of_N_None_iff in E. lia.
Qed.

Lemma to_N_lt_256 (b : byte) : Byte.to_N b < 256.
Proof. pose proof (Byte.to_N_bounded b). lia. Qed.

(** A property checked on the 64 six-bit values holds for all of them. *)
Lemma below_64 (P : N → bool) :
  forallb P (map N.of_nat (seq 0 64)) = true → ∀ n, n < 64 → P n = true.
Proof.
  intros H n Hn. rewrite forallb_forall in H. apply H.
  rewrite <- (N2Nat.id n). apply in_map, in_seq. lia.
Qed.

Lemma b64_value_char (n : N) : n < 64 → b64_value (b64_char n) = Some n.
Proof.
  intros Hn.
  pose proof (below_64
    (λ n, match b64_value (b64_char n) with
          | Some m => m =? n
          | None => false
          end) eq_refl n Hn) as H.
  cbn beta in H. destruct (b64_value (b64_char n)); [|done].
  apply N.eqb_eq in H. by subst.
Qed.

Lemma b64_char_not_pad (n : N) : n < 64 → Byte.eqb (b64_char n) b64_pad = false.
Proof.
  intros Hn.
  apply negb_true_iff.
  exact (below_64 (λ n, negb (Byte.eqb (b64_char n) b64_pad)) eq_refl n Hn).
Qed.

Lemma b64_char_ascii (n : N) : n < 64 → Byte.to_N (b64_char n) < 128.
Proof.
  intros Hn.
  by apply N.ltb_lt, (below_64 (λ n, Byte.to_N (b64_char n) <? 128) eq_refl).
Qed.

(** Lists are covered three elements at a time. *)
Lemma list_ind3 {A} (P : list A → Prop) :
  P [] → (∀ a, P [a]) → (∀ a b, P [a; b]) →
  (∀ a b c l, P l → P (a :: b :: c :: l)) →
  ∀ l, P l.
Proof.
  intros H0 H1 H2 H3 l.
  cut (P l ∧ (∀ a, P (a :: l)) ∧ (∀ a b, P (a :: b :: l))); [by intros [? _]|].
  induction l as [|x l (IH0 & IH1 & IH2)]; split_and!; auto.
Qed.

Lemma b64decode_group (v1 v2 v3 v4 : N) (rest : list byte) :
  v1 < 64 → v2 < 64 → v3 < 64 → v4 < 64 →
  b64decode (b64_char v1 :: b64_char v2 :: b64_char v3 :: b64_char v4 :: rest)
  = tail ← b64decode rest;
    let n := v1 * 262144 + v2 * 4096 + v3 * 64 + v4 in
    Some (byte_of_N (n / 65536) :: byte_of_N ((n / 256) mod 256)
          :: byte_of_N (n mod 256) :: tail).
Proof.
  intros H1 H2 H3 H4. cbn [b64decode].
  rewrite !b64_value_char, b64_char_not_pad by done. reflexivity.
Qed.

Lemma b64decode_pad1 (v1 v2 v3 : N) :
  v1 < 64 → v2 < 64 → v3 < 64 →
  b64decode [b64_char v1; b64_char v2; b64_char v3; b64_pad]
  = let n := v1 * 262144 + v2 * 4096 + v3 * 64 in
    Some [byte_of_N (n / 65536); byte_of_N ((n / 256) mod 256)].
Proof.
  intros H1 H2 H3. cbn [b64decode].
  rewrite !b64_value_char, b64_char_not_pad by done. reflexivity.
Qed.

Lemma b64decode_pad2 (v1 v2 : N) :
  v1 < 64 → v2 < 64 →
  b64decode [b64_char v1; b64_char v2; b64_pad; b64_pad]
  = Some [byte_of_N ((v1 * 262144 + v2 * 4096) / 65536)].
Proof.
  intros H1 H2. cbn [b64decode].
  rewrite !b64_value_char by done. reflexivity.
Qed.

Lemma byte_of_N_eq (n : N) (b : byte) : n = Byte.to_N b → byte_of_N n = b.
Proof. intros ->. apply byte_of_to_N. Qed.

(** Decoding the base64 text of a byte string gives the byte string. *)
Lemma b64decode_b64encode (bs : list byte) : b64decode (b64encode bs) = Some bs.
Proof.
  induction bs as [|a|a b|a b c bs IH] using list_ind3.
  - reflexivity.
  - pose proof (to_N_lt_256 a). cbn [b64encode]. cbv zeta.
    rewrite b64decode_pad2 by divmod. do 2 f_equal.
    apply byte_of_N_eq. divmod.
  - pose proof (to_N_lt_256 a). pose proof (to_N_lt_256 b).
    cbn [b64encode]. cbv zeta. rewrite b64decode_pad1 by divmod. cbv zeta.
    do 2 f_equal; [|f_equal]; apply byte_of_N_eq; divmod.
  - pose proof (to_N_lt_256 a). pose proof (to_N_lt_256 b).
    pose proof (to_N_lt_256 c).
    cbn [b64encode]. cbv zeta. rewrite b64decode_group by divmod.
    rewrite IH. cbn [mbind option_bind]. cbv zeta.
    do 2 f_equal; [|f_equal; [|f_equal]]; apply byte_of_N_eq; divmod.
Qed.

Lemma b64encode_ascii (bs : list byte) :
  Forall (λ c, Byte.to_N c < 128) (b64encode bs).
Proof.
  induction bs as [|a|a b|a b c bs IH] using list_ind3; cbn [b64encode];
    cbv zeta; repeat apply Forall_cons_2; try done;
    try (apply b64_char_ascii;
         pose proof (to_N_lt_256 a); try pose proof (to_N_lt_256 b);
         try pose proof (to_N_lt_256 c); divmod).
Qed.

(** ** UTF-8 *)

(** Decide the comparisons of the goal from the bounds at hand. *)
Ltac compare_N :=
  repeat match goal with
    | |- context [?a <? ?b] =>
        first [ rewrite (proj2 (N.ltb_lt a b)) by divmod
              | rewrite (proj2 (N.ltb_ge a b)) by divmod ]
    | |- context [?a <=? ?b] =>
        first [ rewrite (proj2 (N.leb_le a b)) by divmod
              | rewrite (proj2 (N.leb_gt a b)) by divmod ]
    end.

(** ASCII bytes decode to themselves. *)
Lemma bytes_decode_fuel_ascii (bs : list byte) (fuel : nat) :
  Forall (λ c, Byte.to_N c < 128) bs →
  (length bs ≤ fuel)%nat →
  bytes_decode_fuel fuel bs = Ok (map Byte.to_N bs).
Proof.
  revert fuel. induction bs as [|b bs IH]; intros fuel Hbs Hfuel.
  - by destruct fuel.
  - apply Forall_cons in Hbs as [Hb Hbs].
    destruct fuel as [|fuel]; cbn [length] in Hfuel; [lia|].
    cbn [bytes_decode_fuel]. cbv zeta. compare_N.
    rewrite IH by (done || lia). reflexivity.
Qed.

Lemma bytes_decode_ascii (bs : list byte) :
  Forall (λ c, Byte.to_N c < 128) bs →
  bytes_decode bs = Ok (map Byte.to_N bs).
Proof. intros H. by apply bytes_decode_fuel_ascii. Qed.

Lemma continuation_byte (x : N) :
  x < 64 → continuation (byte_of_N (0x80 + x)) = Some x.
Proof.
  intros H. unfold continuation. rewrite to_N_byte_of_N by lia. cbv zeta.
  compare_N. cbn [andb]. f_equal. lia.
Qed.

Lemma is_scalar_bounds (c : N) :
  is_scalar c = true ↔ c < 0xD800 ∨ (0xDFFF < c ∧ c < 0x110000).
Proof.
  unfold is_scalar. rewrite orb_true_iff, andb_true_iff, !N.ltb_lt. tauto.
Qed.

(** Decoding reads back the code point that was encoded. *)
Lemma bytes_decode_fuel_char (c : N) (cs rest : list byte) (fuel : nat) :
  utf8_char c = Ok cs →
  bytes_decode_fuel (S fuel) (cs ++ rest)
  = (r ← bytes_decode_fuel fuel rest; Ok (c :: r)).
Proof.
  unfold utf8_char.
  destruct (c <? 0x80) eqn:H1; [|destruct (c <? 0x800) eqn:H2;
    [|destruct (is_scalar c) eqn:Hs; [|done]; cbn [negb];
      destruct (c <? 0x10000) eqn:H3]];
    intros [= <-]; cbn [app bytes_decode_fuel]; cbv zeta;
    rewrite ?N.ltb_lt, ?N.ltb_ge in *; apply is_scalar_bounds in Hs || idtac.
  - rewrite to_N_byte_of_N by lia. compare_N. reflexivity.
  - rewrite to_N_byte_of_N by divmod. rewrite continuation_byte by divmod.
    replace ((192 + c `div` 64 - 192) * 64 + c `mod` 64) with c by divmod.
    compare_N. reflexivity.
  - rewrite to_N_byte_of_N by divmod. rewrite !continuation_byte by divmod.
    replace ((224 + c `div` 4096 - 224) * 4096 + (c `div` 64) `mod` 64 * 64
             + c `mod` 64) with c by divmod.
    compare_N. cbn [andb].
    rewrite (proj2 (is_scalar_bounds c)) by done. reflexivity.
  - rewrite to_N_byte_of_N by divmod. rewrite !continuation_byte by divmod.
    replace ((240 + c `div` 262144 - 240) * 262144
             + (c `div` 4096) `mod` 64 * 4096 + (c `div` 64) `mod` 64 * 64
             + c `mod` 64) with c by divmod.
    compare_N. reflexivity.
Qed.

Lemma utf8_char_nonempty (c : N) (cs : list byte) :
  utf8_char c = Ok cs → cs ≠ [].
Proof.
  unfold utf8_char.
  repeat match goal with |- context [if ?b then _ else _] => destruct b end;
    by intros [= <-].
Qed.

Lemma str_encode_cons (c : N) (s : pystr) (bs : list byte) :
  str_encode (c :: s) = Ok bs →
  ∃ cs rest, utf8_char c = Ok cs ∧ str_encode s = Ok rest ∧ bs = cs ++ rest.
Proof.
  cbn [str_encode]. destruct (utf8_char c) as [cs|]; [|done].
  cbn [mbind outcome_bind]. destruct (str_encode s) as [rest|]; [|done].
  cbn [mbind outcome_bind]. intros [= <-]. eauto.
Qed.

Lemma str_encode_length (s : pystr) (bs : list byte) :
  str_encode s = Ok bs → (length s ≤ length bs)%nat.
Proof.
  revert bs. induction s as [|c s IH]; intros bs H; [cbn; lia|].
  apply str_encode_cons in H as (cs & rest & Hc & Hs & ->).
  apply utf8_char_nonempty in Hc. specialize (IH _ Hs).
  rewrite length_app. destruct cs; [done|]. cbn [length]. lia.
Qed.

Lemma bytes_decode_fuel_str_encode (s : pystr) (bs : list byte) (fuel : nat) :
  str_encode s = Ok bs → (length s ≤ fuel)%nat →
  bytes_decode_fuel fuel bs = Ok s.
Proof.
  revert bs fuel. induction s as [|c s IH]; intros bs fuel H Hfuel.
  - injection H as <-. by destruct fuel.
  - apply str_encode_cons in H as (cs & rest & Hc & Hs & ->).
    destruct fuel as [|fuel]; cbn [length] in Hfuel; [lia|].
    rewrite (bytes_decode_fuel_char _ _ _ _ Hc), (IH _ _ Hs) by lia.
    reflexivity.
Qed.

(** Decoding the UTF-8 bytes of a string gives the string. *)
Lemma bytes_decode_str_encode (s : pystr) (bs : list byte) :
  str_encode s = Ok bs → bytes_decode bs = Ok s.
Proof.
  intros H. apply bytes_decode_fuel_str_encode; [done|].
  by apply str_encode_length.
Qed.

(** Exactly the strings without surrogates (and within the range of
    Unicode) can be encoded. *)
Lemma utf8_char_encodable (c : N) :
  is_scalar c = true → ∃ cs, utf8_char c = Ok cs.
Proof.
  intros H. unfold utf8_char. rewrite H. cbn [negb].
  repeat match goal with |- context [if ?b then _ else _] => destruct b end;
    eauto.
Qed.

Lemma str_encode_encodable (s : pystr) :
  encodable s → ∃ bs, str_encode s = Ok bs.
Proof.
  induction 1 as [|c s Hc _ (rest & IH)]; [by exists []|].
  destruct (utf8_char_encodable c Hc) as (cs & Hcs).
  exists (cs ++ rest). cbn [str_encode]. by rewrite Hcs, IH.
Qed.

Lemma encodable_app (s t : pystr) : encodable s → encodable t → encodable (s ++ t).
Proof. apply Forall_app_2. Qed.

Lemma encodable_lit (s : string) : encodable (lit s).
Proof.
  unfold encodable, lit. apply Forall_map, Forall_forall. intros a _. cbn.
  pose proof (N_ascii_bounded a). apply is_scalar_bounds. lia.
Qed.

(** ** Download link *)

Lemma download_txt_encoded (subject body : pystr) (encoded : list byte) :
  str_encode (download_content subject body) = Ok encoded →
  download_txt subject body
  = Ok (LINK_HEAD ++ map Byte.to_N (b64encode encoded) ++ LINK_TAIL).
Proof.
  intros H. unfold download_txt. cbv zeta. rewrite H. cbn [mbind outcome_bind].
  by rewrite bytes_decode_ascii by apply b64encode_ascii.
Qed.

(** The link cannot be built for a string that UTF-8 cannot encode. *)
Lemma download_txt_surrogate :
  download_txt [0xD800] (lit "Hello") = Raise UnicodeEncodeError.
Proof. reflexivity. Qed.

(** C9 as stated fails: a Python string may hold a lone surrogate, and
    then [content.encode()] raises and no link is produced. *)
Lemma download_txt_not_total :
  ¬ (∀ subject body : pystr,
       ∃ payload,
         download_txt subject body
         = Ok (LINK_HEAD ++ map Byte.to_N payload ++ LINK_TAIL) ∧
         ∃ content,
           b64decode payload = Some content ∧
           bytes_decode content
           = Ok (lit "Subject: " ++ subject ++ NL ++ NL ++ body)).
Proof.
  intros H. destruct (H [0xD800] (lit "Hello")) as (payload & Hd & _).
  rewrite download_txt_surrogate in Hd. discriminate Hd.
Qed.

(** C9, amended: for a subject and a body that UTF-8 can encode (code
    points of Unicode, no lone surrogate) the link holds, between its fixed
    head and tail, a base64 payload that decodes to the UTF-8 bytes of
    "Subject: " + subject + "\n\n" + body, and these bytes decode to that
    string. *)
Theorem download_txt_payload (subject body : pystr) :
  encodable subject → encodable body →
  ∃ payload content,
    download_txt subject body
    = Ok (LINK_HEAD ++ map Byte.to_N payload ++ LINK_TAIL) ∧
    b64decode payload = Some content ∧
    str_encode (lit "Subject: " ++ subject ++ NL ++ NL ++ body) = Ok content ∧
    bytes_decode content = Ok (lit "Subject: " ++ subject ++ NL ++ NL ++ body).
Proof.
  intros Hs Hb.
  destruct (str_encode_encodable (download_content subject body))
    as (content & Hc).
  { unfold download_content. repeat apply encodable_app; try done.
    - apply encodable_lit.
    - by repeat constructor.
    - by repeat constructor. }
  exists (b64encode content), content. split_and!.
  - by apply download_txt_encoded.
  - apply b64decode_b64encode.
  - exact Hc.
  - by apply bytes_decode_str_encode.
Qed.

Lemma download_txt_payload_witness :
  ∃ payload content,
    download_txt (lit "Leave Request") (lit "Dear Sir, ...")
    = Ok (LINK_HEAD ++ map Byte.to_N payload ++ LINK_TAIL) ∧
    b64decode payload = Some content ∧
    str_encode (lit "Subject: " ++ lit "Leave Request" ++ NL ++ NL
                ++ lit "Dear Sir, ...") = Ok content ∧
    bytes_decode content
    = Ok (lit "Subject: " ++ lit "Leave Request" ++ NL ++ NL
          ++ lit "Dear Sir, ...").
Proof.
  apply (download_txt_payload (lit "Leave Request") (lit "Dear Sir, ...")).
  - apply encodable_lit.
  - apply encodable_lit.
Defined.

Example download_txt_leave_request :
  download_txt (lit "Leave Request") (lit "Dear Sir, ...")
  = Ok (LINK_HEAD
        ++ lit "U3ViamVjdDogTGVhdmUgUmVxdWVzdAoKRGVhciBTaXIsIC4uLg=="
        ++ LINK_TAIL).
Proof. vm_compute. reflexivity. Qed.

(** * Further properties *)

(** ** The store in any world *)

(** A request either is refused, or runs its action; the documents are the
    same when it starts to act. *)
Lemma firestore_request_cases {A} (c : call) (k : M A) (w : world) :
  (∃ ex w1, firestore_request c k w = (Raise ex, w1) ∧ users w1 = users w) ∨
  (∃ w1, firestore_request c k w = k w1 ∧ users w1 = users w).
Proof.
  destruct w as [l s u f cs]. unfold firestore_request.
  cbn [faults with_calls with_faults logged shown users calls].
  destruct f as [|[ex|] fs]; [right|left|right]; eauto.
Qed.

Lemma emails_of_insert (w : world) (m : gmap pystr (list email_obj))
    (user_email : pystr) (l : list email_obj) :
  emails_of (with_users w (<[user_email := l]> m)) user_email = l.
Proof. unfold emails_of. cbn [users with_users]. by rewrite lookup_insert_eq. Qed.

Lemma emails_of_insert_ne (w : world) (m : gmap pystr (list email_obj))
    (user_email other : pystr) (l : list email_obj) :
  other ≠ user_email →
  emails_of (with_users w (<[user_email := l]> m)) other = default [] (m !! other).
Proof.
  intros H. unfold emails_of. cbn [users with_users].
  by rewrite lookup_insert_ne.
Qed.

Lemma ensure_user_doc_any (user_email : pystr) (w : world) :
  ∃ r w', ensure_user_doc user_email w = (r, w') ∧
          (∀ other, emails_of w' other = emails_of w other) ∧
          (r = Ok user_email ∧ users w' !! user_email = Some (emails_of w user_email)
           ∨ ∃ ex, r = Raise ex).
Proof.
  unfold ensure_user_doc, doc_get, doc_set, emails_of. unfold mbind, M_bind.
  destruct (firestore_request_cases (CallFirestoreGet user_email)
              (λ w0, (Ok (users w0 !! user_email), w0)) w)
    as [(ex & w1 & -> & Hu1)|(w1 & -> & Hu1)].
  { eexists _, _. split; [reflexivity|]. rewrite Hu1. eauto. }
  rewrite Hu1. destruct (users w !! user_email) as [old|] eqn:Hold.
  { cbn. eexists _, _. split; [reflexivity|]. rewrite Hu1, Hold. eauto. }
  destruct (firestore_request_cases (CallFirestoreSet user_email)
              (λ w0, (Ok (), with_users w0 (<[user_email := []]> (users w0)))) w1)
    as [(ex & w2 & -> & Hu2)|(w2 & -> & Hu2)].
  { eexists _, _. split; [reflexivity|]. rewrite Hu2, Hu1. eauto. }
  cbn. eexists _, _. split; [reflexivity|]. cbn [users with_users].
  rewrite Hu2, Hu1, lookup_insert_eq.
  split; [|by left]. intros other.
  destruct (decide (user_email = other)) as [<-|Hne].
  - by rewrite lookup_insert_eq, Hold.
  - by rewrite lookup_insert_ne.
Qed.

(** An update of the record behind [ensure_user_doc] and a handler that
    leaves the documents alone: the record is as before, or updated as
    asked, and the other records are as before. *)
Lemma update_emails_any (user_email : pystr) (v : field_value)
    (h : exn → M unit) (w : world) :
  (∀ ex w0, ∃ w1, h ex w0 = (Ok (), w1) ∧ users w1 = users w0) →
  ∃ r w', (ref ← ensure_user_doc user_email;
           try_except (doc_update ref v) h) w = (r, w') ∧
          (emails_of w' user_email = emails_of w user_email
           ∨ emails_of w' user_email
             = apply_field_value (emails_of w user_email) v) ∧
          (∀ other, other ≠ user_email → emails_of w' other = emails_of w other).
Proof.
  intros Hh. unfold mbind, M_bind.
  destruct (ensure_user_doc_any user_email w)
    as (r & w1 & -> & Hsame & [[-> Hdoc]|[ex ->]]).
  2: { eexists _, _. split; [reflexivity|]. split; [left|]; eauto. }
  unfold try_except, doc_update.
  destruct (firestore_request_cases (CallFirestoreUpdate user_email)
    (λ w0, match users w0 !! user_email with
           | None => (Raise NotFound, w0)
           | Some old0 =>
               (Ok (), with_users w0
                  (<[user_email := apply_field_value old0 v]> (users w0)))
           end) w1) as [(ex & w2 & -> & Hu2)|(w2 & -> & Hu2)].
  - destruct (Hh ex w2) as (w3 & -> & Hu3).
    eexists _, _. split; [reflexivity|]. unfold emails_of in *.
    rewrite Hu3, Hu2. split; [left|]; eauto.
  - rewrite Hu2, Hdoc. eexists _, _. split; [reflexivity|].
    split.
    + right. apply emails_of_insert.
    + intros other Hne. rewrite emails_of_insert_ne by done. apply Hsame.
Qed.

Lemma save_email_any (user_email : pystr) (e : email_obj) (w : world) :
  ∃ r w', save_email user_email e w = (r, w') ∧
          (emails_of w' user_email = emails_of w user_email
           ∨ emails_of w' user_email = array_union (emails_of w user_email) [e]) ∧
          (∀ other, other ≠ user_email → emails_of w' other = emails_of w other).
Proof.
  apply (update_emails_any user_email (ArrayUnion [e])).
  intros ex w0. eexists. split; reflexivity.
Qed.

Lemma remove_email_any (user_email : pystr) (e : email_obj) (w : world) :
  ∃ r w', remove_email user_email e w = (r, w') ∧
          (emails_of w' user_email = emails_of w user_email
           ∨ emails_of w' user_email = array_remove (emails_of w user_email) [e]) ∧
          (∀ other, other ≠ user_email → emails_of w' other = emails_of w other).
Proof.
  apply (update_emails_any user_email (ArrayRemove [e])).
  intros ex w0. eexists. split; reflexivity.
Qed.

(** X1: whatever the store does, [save_email] never drops or reorders
    what is stored and never touches the record of another user: the old
    sequence is a prefix of the new one, which is the old one or the old one
    with the e-mail added. *)
Theorem save_email_only_appends (user_email : pystr) (e : email_obj) (w : world) :
  let w' := (save_email user_email e w).2 in
  emails_of w user_email `prefix_of` emails_of w' user_email ∧
  (emails_of w' user_email = emails_of w user_email
   ∨ emails_of w' user_email = emails_of w user_email ++ [e]) ∧
  (∀ other, other ≠ user_email → emails_of w' other = emails_of w other).
Proof.
  destruct (save_email_any user_email e w) as (r & w' & Hrun & Hcases & Hother).
  rewrite Hrun. cbn [snd]. rewrite array_union_one in Hcases.
  destruct (bool_decide (e ∈ emails_of w user_email));
    destruct Hcases as [->| ->]; split_and!; auto;
    try done; by apply prefix_app_r.
Qed.

(** X2: whatever the store does, [remove_email] never adds an element and
    never touches the record of another user: the new sequence is the old
    one or the old one without the elements equal to the e-mail. *)
Theorem remove_email_only_removes (user_email : pystr) (e : email_obj) (w : world) :
  let w' := (remove_email user_email e w).2 in
  sublist (emails_of w' user_email) (emails_of w user_email) ∧
  (emails_of w' user_email = emails_of w user_email
   ∨ emails_of w' user_email = filter (λ x, x ≠ e) (emails_of w user_email)) ∧
  (∀ other, other ≠ user_email → emails_of w' other = emails_of w other).
Proof.
  destruct (remove_email_any user_email e w) as (r & w' & Hrun & Hcases & Hother).
  rewrite Hrun. cbn [snd]. rewrite array_remove_one in Hcases.
  destruct Hcases as [->| ->]; split_and!; auto.
  apply sublist_filter.
Qed.

(** ** Failures of the store *)

(** Run a store operation on a world given by its fields. *)
Ltac run_store :=
  unfold save_email, remove_email, ensure_user_doc, doc_get, doc_set,
    doc_update, firestore_request, emails_of;
  run_M;
  cbn [faults with_calls with_faults with_users with_logged with_shown
       logged shown users calls].

Ltac world_fields :=
  cbn [faults with_calls with_faults with_users with_logged with_shown
       logged shown users calls].

(** X3: when the update is refused by the store, [save_email] catches the
    exception: it returns normally, the stored sequence is as before, the
    failure is logged with the text of the exception and an error is shown
    in the side bar. *)
Theorem save_email_refused (user_email : pystr) (e : email_obj) (ex : exn)
    (w : world) :
  update_refused w user_email ex →
  ∃ w', save_email user_email e w = (Ok (), w') ∧
        emails_of w' user_email = emails_of w user_email ∧
        logged w' = logged w ++ [lit "Firestore save failed: " ++ exn_str ex] ∧
        shown w'
        = shown w
          ++ [StSidebarError (CROSS ++ lit " Failed to save email to Firestore.")].
Proof.
  destruct w as [l s u f cs]. unfold update_refused. cbn [users faults].
  intros [fs H]. destruct (u !! user_email) as [old|] eqn:Hold; subst f.
  - run_store. rewrite Hold. cbn beta iota. eexists. split; [reflexivity|].
    world_fields. by rewrite Hold.
  - run_store. rewrite Hold. cbn beta iota. world_fields. cbn beta iota.
    world_fields. eexists. split; [reflexivity|].
    world_fields. by rewrite lookup_insert_eq.
Qed.

Lemma save_email_refused_witness :
  ∃ w', save_email (lit "a@b.pk") (email_of (lit "Re") (lit "Thanks"))
          refused_write_world = (Ok (), w') ∧
        emails_of w' (lit "a@b.pk") = emails_of refused_write_world (lit "a@b.pk") ∧
        logged w'
        = logged refused_write_world
          ++ [lit "Firestore save failed: "
              ++ exn_str (Exn (lit "ServiceUnavailable") (lit "503 unavailable"))] ∧
        shown w'
        = shown refused_write_world
          ++ [StSidebarError (CROSS ++ lit " Failed to save email to Firestore.")].
Proof.
  apply (save_email_refused (lit "a@b.pk") (email_of (lit "Re") (lit "Thanks"))
           (Exn (lit "ServiceUnavailable") (lit "503 unavailable"))
           refused_write_world).
  exists []. reflexivity.
Defined.

(** X4: when the update is refused by the store, [remove_email] catches
    the exception: it returns normally, nothing is removed, the failure is
    logged and an error is shown on the page. *)
Theorem remove_email_refused (user_email : pystr) (e : email_obj) (ex : exn)
    (w : world) :
  update_refused w user_email ex →
  ∃ w', remove_email user_email e w = (Ok (), w') ∧
        emails_of w' user_email = emails_of w user_email ∧
        logged w' = logged w ++ [lit "Firestore remove failed: " ++ exn_str ex] ∧
        shown w' = shown w ++ [StError (CROSS ++ lit " Failed to delete email.")].
Proof.
  destruct w as [l s u f cs]. unfold update_refused. cbn [users faults].
  intros [fs H]. destruct (u !! user_email) as [old|] eqn:Hold; subst f.
  - run_store. rewrite Hold. cbn beta iota. eexists. split; [reflexivity|].
    world_fields. by rewrite Hold.
  - run_store. rewrite Hold. cbn beta iota. world_fields. cbn beta iota.
    world_fields. eexists. split; [reflexivity|].
    world_fields. by rewrite lookup_insert_eq.
Qed.

Lemma remove_email_refused_witness :
  ∃ w', remove_email (lit "a@b.pk") (email_of (lit "Hi") (lit "Hello"))
          refused_write_world = (Ok (), w') ∧
        emails_of w' (lit "a@b.pk") = emails_of refused_write_world (lit "a@b.pk") ∧
        logged w'
        = logged refused_write_world
          ++ [lit "Firestore remove failed: "
              ++ exn_str (Exn (lit "ServiceUnavailable") (lit "503 unavailable"))] ∧
        shown w'
        = shown refused_write_world
          ++ [StError (CROSS ++ lit " Failed to delete email.")].
Proof.
  apply (remove_email_refused (lit "a@b.pk") (email_of (lit "Hi") (lit "Hello"))
           (Exn (lit "ServiceUnavailable") (lit "503 unavailable"))
           refused_write_world).
  exists []. reflexivity.
Defined.

(** X5: the read of the document in [ensure_user_doc] is outside the
    [try] blocks: when the first request is refused, [ensure_user_doc],
    [save_email] and [remove_email] all raise the exception of the store;
    nothing is stored, logged or shown. *)
Theorem store_unreachable_raises (user_email : pystr) (e : email_obj) (ex : exn)
    (fs : list (option exn)) (w : world) :
  faults w = Some ex :: fs →
  let w' := with_faults (with_calls w (calls w ++ [CallFirestoreGet user_email])) fs in
  ensure_user_doc user_email w = (Raise ex, w') ∧
  save_email user_email e w = (Raise ex, w') ∧
  remove_email user_email e w = (Raise ex, w').
Proof.
  destruct w as [l s u f cs]. cbn [faults]. intros ->.
  repeat split; run_store; reflexivity.
Qed.

Lemma store_unreachable_raises_witness :
  let ex := Exn (lit "ServiceUnavailable") (lit "503 unavailable") in
  let w' := with_faults (with_calls unreachable_world
                           (calls unreachable_world
                            ++ [CallFirestoreGet (lit "a@b.pk")])) [] in
  ensure_user_doc (lit "a@b.pk") unreachable_world = (Raise ex, w') ∧
  save_email (lit "a@b.pk") (email_of (lit "Re") (lit "Thanks")) unreachable_world
  = (Raise ex, w') ∧
  remove_email (lit "a@b.pk") (email_of (lit "Re") (lit "Thanks")) unreachable_world
  = (Raise ex, w').
Proof.
  apply (store_unreachable_raises (lit "a@b.pk") (email_of (lit "Re") (lit "Thanks"))
           (Exn (lit "ServiceUnavailable") (lit "503 unavailable")) []
           unreachable_world).
  reflexivity.
Defined.

(** ** The store when its requests go through *)












(** ** Saved e-mails *)












(** ** Generation client, for any behaviour of the service *)

(** X13: whatever the service does, [generate_with_gemini] returns
    normally, and what it returns is never empty: it is the non-empty text
    of the response, or the notice of an empty response, or the fallback
    text built on the prompt and the exception. *)
Theorem generate_with_gemini_never_empty
    (generate_content : content → outcome response)
    (prompt : pystr) (system_instruction : option pystr) (w : world) :
  ∃ s w',
    generate_with_gemini generate_content prompt system_instruction w
    = (Ok s, w') ∧
    s ≠ [] ∧
    ((∃ r, generate_content (gemini_request prompt system_instruction) = Ok r
           ∧ text r = Ok s)
     ∨ s = EMPTY_RESPONSE
     ∨ ∃ e, s = fallback_text prompt e) ∧
    users w' = users w ∧ shown w' = shown w.
Proof.
  destruct (generate_content (gemini_request prompt system_instruction))
    as [r|e] eqn:Hg.
  - destruct (text r) as [t|e] eqn:Ht.
    + rewrite (generate_with_gemini_success _ _ _ _ _ _ Hg Ht).
      eexists _, _. split; [reflexivity|]. destruct t as [|c t]; cbn [truthy].
      * split_and!; try done. right. by left.
      * split_and!; try done. left. eauto.
    + rewrite (generate_with_gemini_except generate_content prompt
                 system_instruction e w) by eauto.
      eexists _, _. split; [reflexivity|]. split_and!; try done.
      right. right. by exists e.
  - rewrite (generate_with_gemini_except generate_content prompt
               system_instruction e w) by eauto.
    eexists _, _. split; [reflexivity|]. split_and!; try done.
    right. right. by exists e.
Qed.

(** ** Document text extractor, for any behaviour of the libraries *)

Lemma join_empty (sep : pystr) (parts : list pystr) :
  Forall (λ t, t ≠ []) parts → join sep parts = [] → parts = [].
Proof.
  destruct 1 as [|p parts Hp _]; [done|]. cbn [join].
  destruct parts; [done|]. by destruct p.
Qed.

Lemma extracted_texts_empty {page : Type} (extract_text : page → outcome pystr)
    (pages : list page) :
  filter (λ t, t ≠ []) (extracted_texts extract_text pages) = [] ↔
  Forall (λ p, extract_text p = Ok [] ∨ ∃ e, extract_text p = Raise e) pages.
Proof.
  induction pages as [|p pages IH].
  - split; [constructor|done].
  - cbn [extracted_texts omap list_omap]. fold (extracted_texts extract_text pages).
    rewrite Forall_cons, <- IH. destruct (extract_text p) as [[|c t]|e].
    + rewrite filter_cons_False by (intros Hne; by apply Hne).
      split; [intros ?; split; [by left|done] | by intros [_ ?]].
    + rewrite filter_cons_True by done. split; [done|].
      intros [[?|[? ?]] _]; done.
    + split; [intros ?; split; [right; eauto|done] | by intros [_ ?]].
Qed.

Section Extractor_any.
Variables file page : Type.
Variable PdfReader : file → outcome (list page).
Variable extract_text : page → outcome pystr.
Variable Document : file → outcome (list pystr).

(** X14: for a PDF that can be opened, the extracted text is empty exactly
    when every page raises or yields the empty text; this is the case in
    which the page warns that the CV could not be processed. *)
Theorem extract_text_from_pdf_empty (f : file) (pages : list page) (w : world) :
  PdfReader f = Ok pages →
  (extract_text_from_pdf file page PdfReader extract_text f w).1 = Ok [] ↔
  Forall (λ p, extract_text p = Ok [] ∨ ∃ e, extract_text p = Raise e) pages.
Proof.
  intros H.
  rewrite (extract_text_from_pdf_readable _ _ _ _ _ _ _ H). cbn [fst].
  rewrite <- extracted_texts_empty. split.
  - intros [= Hj]. eapply join_empty; [|exact Hj].
    apply Forall_forall. by intros t [Ht _]%list_elem_of_filter.
  - by intros ->.
Qed.

(** X15: whatever the declared type and whatever the libraries do,
    [analyze_cv] returns normally; it shows nothing and leaves the store
    alone; it logs at most one message, and when it logs one the text it
    returns is empty. *)
Theorem analyze_cv_never_raises (f : file) (file_type : pystr) (w : world) :
  ∃ s w',
    analyze_cv file page PdfReader extract_text Document f file_type w
    = (Ok s, w') ∧
    users w' = users w ∧ shown w' = shown w ∧
    (logged w' = logged w ∨ (s = [] ∧ ∃ msg, logged w' = logged w ++ [msg])).
Proof.
  unfold analyze_cv.
  destruct (bool_decide (file_type = lit "pdf")).
  { destruct (PdfReader f) as [pages|e] eqn:H.
    - rewrite (extract_text_from_pdf_readable _ _ _ _ _ _ _ H).
      eexists _, _. split; [reflexivity|]. split_and!; try done. by left.
    - rewrite (extract_text_from_pdf_unreadable _ _ _ _ _ _ _ H).
      eexists _, _. split; [reflexivity|]. split_and!; try done. right. eauto. }
  destruct (bool_decide (file_type ∈ [lit "doc"; lit "docx"])).
  { destruct (Document f) as [paragraphs|e] eqn:H.
    - rewrite (extract_text_from_docx_readable _ _ _ _ _ H).
      eexists _, _. split; [reflexivity|]. split_and!; try done. by left.
    - rewrite (extract_text_from_docx_unreadable _ _ _ _ _ H).
      eexists _, _. split; [reflexivity|]. split_and!; try done. right. eauto. }
  eexists _, _. split; [reflexivity|]. split_and!; try done. by left.
Qed.
End Extractor_any.

Lemma extract_text_from_pdf_empty_witness :
  (extract_text_from_pdf unit pystr (λ _, Ok [[]; []]) Ok tt initial_world).1
  = Ok [] ↔
  Forall (λ p : pystr, Ok p = Ok [] ∨ ∃ e, Ok p = Raise e) [[]; []].
Proof.
  apply (extract_text_from_pdf_empty unit pystr (λ _, Ok [[]; []]) Ok tt
           [[]; []] initial_world).
  reflexivity.
Defined.

(** ** White space at the ends *)

Lemma lstrip_decompose (s : pystr) :
  ∃ sp, s = sp ++ lstrip s ∧ Forall (λ c, isspace c = true) sp.
Proof.
  induction s as [|c s (sp & Hs & Hsp)]; [by exists []|]. cbn [lstrip].
  destruct (isspace c) eqn:Hc.
  - exists (c :: sp). split; [cbn; by f_equal | by constructor].
  - by exists [].
Qed.

Lemma lstrip_length (s : pystr) : (length (lstrip s) ≤ length s)%nat.
Proof.
  destruct (lstrip_decompose s) as (sp & Hs & _).
  rewrite Hs at 2. rewrite length_app. lia.
Qed.

(** [lstrip] leaves a string alone exactly when it does not begin with
    white space. *)
Lemma lstrip_fixed (s : pystr) :
  lstrip s = s ↔ ∀ c, head s = Some c → isspace c = false.
Proof.
  destruct s as [|c s]; [done|]. cbn [lstrip head]. split.
  - intros H c' [= <-]. destruct (isspace c) eqn:Hc; [|done].
    pose proof (lstrip_length s) as Hlen. rewrite H in Hlen. cbn in Hlen. lia.
  - intros H. by rewrite (H c eq_refl).
Qed.

Lemma lstrip_lstrip (s : pystr) : lstrip (lstrip s) = lstrip s.
Proof.
  apply lstrip_fixed. intros c Hc.
  destruct (lstrip s) as [|c' t] eqn:E; [done|]. injection Hc as ->.
  by apply lstrip_head in E.
Qed.

Lemma rstrip_decompose (s : pystr) :
  ∃ sp, s = rstrip s ++ sp ∧ Forall (λ c, isspace c = true) sp.
Proof.
  destruct (lstrip_decompose (rev s)) as (sp & Hs & Hsp).
  exists (rev sp). split; [|by apply Forall_rev].
  unfold rstrip. by rewrite <- rev_app_distr, <- Hs, rev_involutive.
Qed.

Lemma head_rev (s : pystr) : head (rev s) = last s.
Proof. rewrite <- head_reverse. unfold reverse. by rewrite <- rev_alt. Qed.

(** [rstrip] leaves a string alone exactly when it does not end with
    white space. *)
Lemma rstrip_fixed (s : pystr) :
  rstrip s = s ↔ ∀ c, last s = Some c → isspace c = false.
Proof.
  rewrite <- head_rev, <- lstrip_fixed. unfold rstrip. split.
  - intros H. apply (f_equal (@rev N)) in H. by rewrite rev_involutive in H.
  - intros ->. apply rev_involutive.
Qed.

Lemma rstrip_rstrip (s : pystr) : rstrip (rstrip s) = rstrip s.
Proof. unfold rstrip. by rewrite rev_involutive, lstrip_lstrip. Qed.

(** Stripping on the right keeps a front that is free of white space. *)
Lemma lstrip_rstrip (s : pystr) : lstrip s = s → lstrip (rstrip s) = rstrip s.
Proof.
  rewrite !lstrip_fixed. intros H c Hc.
  destruct (rstrip_decompose s) as (sp & Hs & _). apply H.
  rewrite Hs. by destruct (rstrip s).
Qed.

Lemma lstrip_strip (s : pystr) : lstrip (strip s) = strip s.
Proof. apply lstrip_rstrip, lstrip_lstrip. Qed.

Lemma rstrip_strip (s : pystr) : rstrip (strip s) = strip s.
Proof. apply rstrip_rstrip. Qed.

Lemma strip_strip (s : pystr) : strip (strip s) = strip s.
Proof. unfold strip at 1. by rewrite lstrip_strip, rstrip_strip. Qed.

(** The ends of a stripped string. *)
Lemma strip_ends (s : pystr) (c : N) :
  head (strip s) = Some c ∨ last (strip s) = Some c → isspace c = false.
Proof.
  intros [H|H].
  - by apply (proj1 (lstrip_fixed (strip s)) (lstrip_strip s)).
  - by apply (proj1 (rstrip_fixed (strip s)) (rstrip_strip s)).
Qed.

(** ** What the parser returns *)

(** The subject and the body are stripped strings, or the fallback
    subject. *)
Lemma parse_subject_body_stripped (raw subject body : pystr) :
  parse_subject_body raw = Ok (subject, body) →
  (∃ x, subject = strip x) ∧ (∃ y, body = strip y).
Proof.
  unfold parse_subject_body.
  assert (∃ x, GENERATED_EMAIL = strip x) as Hgen
    by (by exists GENERATED_EMAIL).
  destruct (contains SUBJECT raw && contains BODY raw).
  - destruct (parse_try raw) as [[[s b]|]|e] eqn:Ht.
    + intros [= -> ->]. revert Ht. unfold parse_try.
      destruct (split1 BODY raw) as [parts|]; [|done]. cbn [mbind outcome_bind].
      destruct (unpack2 parts) as [[before after]|]; [|done].
      cbn [mbind outcome_bind].
      destruct (truthy (strip (replace SUBJECT [] before))
                && truthy (strip after)); [|done].
      intros [= <- <-]. eauto.
    + intros [= <- <-]. eauto.
    + intros [= <- <-]. eauto.
  - intros [= <- <-]. eauto.
Qed.

(** X16: the subject and the body that the parser returns never begin or
    end with white space, and stripping them again changes nothing. *)
Theorem parse_subject_body_trimmed (raw subject body : pystr) :
  parse_subject_body raw = Ok (subject, body) →
  strip subject = subject ∧ strip body = body ∧
  ∀ c, head subject = Some c ∨ last subject = Some c
       ∨ head body = Some c ∨ last body = Some c →
       isspace c = false.
Proof.
  intros [[x ->] [y ->]]%parse_subject_body_stripped.
  split_and!; [apply strip_strip..|].
  intros c [H|[H|[H|H]]]; eapply strip_ends; eauto.
Qed.

Lemma parse_subject_body_trimmed_witness :
  strip (lit "Hi") = lit "Hi" ∧ strip (lit "Hello there") = lit "Hello there" ∧
  ∀ c, head (lit "Hi") = Some c ∨ last (lit "Hi") = Some c
       ∨ head (lit "Hello there") = Some c ∨ last (lit "Hello there") = Some c →
       isspace c = false.
Proof.
  apply (parse_subject_body_trimmed
           (lit "Subject: Hi" ++ NL ++ lit "Body:   Hello there  ")).
  vm_compute. reflexivity.
Defined.

(** ** Occurrences and the first and last character *)

Lemma occurs_in_first_char (c : N) (sub x y : pystr) :
  c ∉ x → occurs_in (c :: sub) (x ++ y) → occurs_in (c :: sub) y.
Proof.
  induction x as [|a x IH]; [done|]. rewrite not_elem_of_cons.
  intros [Hne Hx] (pre & post & Heq). apply IH; [done|].
  destruct pre as [|p pre]; injection Heq as -> Heq; [done|].
  by exists pre, post.
Qed.

Lemma occurs_in_rev (sub s : pystr) :
  occurs_in sub s → occurs_in (rev sub) (rev s).
Proof.
  intros (pre & post & ->). exists (rev post), (rev pre).
  by rewrite !rev_app_distr, <- app_assoc.
Qed.

Lemma occurs_in_last_char (c : N) (sub x y : pystr) :
  c ∉ y → occurs_in (sub ++ [c]) (x ++ y) → occurs_in (sub ++ [c]) x.
Proof.
  intros Hc H%occurs_in_rev. rewrite !rev_app_distr in H. cbn [rev app] in H.
  apply occurs_in_first_char in H.
  - apply occurs_in_rev in H. cbn [rev] in H.
    by rewrite !rev_involutive in H.
  - intros Hin. apply Hc. apply list_elem_of_In. apply in_rev.
    by apply list_elem_of_In.
Qed.

(** Where [find] finds a string whose last character closes no earlier
    occurrence. *)
Lemma find_at (sub0 pre post : pystr) (c : N) :
  ¬ occurs_in (sub0 ++ [c]) (pre ++ sub0) →
  find (sub0 ++ [c]) (pre ++ (sub0 ++ [c]) ++ post) = Some (length pre).
Proof.
  intros Hno. set (sub := sub0 ++ [c]). set (raw := pre ++ sub ++ post).
  destruct (find sub raw) as [i|] eqn:Hf.
  2: { apply find_None in Hf. destruct Hf. by exists pre, post. }
  f_equal. destruct (find_Some _ _ _ Hf) as [[Heq Hmin] Hlen].
  specialize (Hmin pre post eq_refl). rewrite Hlen in Hmin.
  destruct (decide (i = length pre)) as [|Hne]; [done|]. destruct Hno.
  exists (take i raw),
    (take (length pre + length sub0 - (i + length sub))
       (drop (i + length sub) raw)).
  assert (pre ++ sub0 = take (length pre + length sub0) raw) as ->.
  { unfold raw, sub. rewrite !app_assoc, <- (app_assoc _ [c]).
    by rewrite take_app_length' by (rewrite length_app; lia). }
  rewrite Heq at 1. rewrite app_assoc.
  assert (length (take i raw ++ sub) = (i + length sub)%nat) as Hl
    by (by rewrite length_app, Hlen).
  rewrite take_app_ge by (rewrite Hl; unfold sub; rewrite length_app; cbn; lia).
  by rewrite Hl, <- app_assoc.
Qed.

(** ** White space around a stripped string *)

Lemma lstrip_app_spaces (sp s : pystr) :
  Forall (λ c, isspace c = true) sp → lstrip (sp ++ s) = lstrip s.
Proof. induction 1 as [|c sp Hc _ IH]; [done|]. cbn. by rewrite Hc. Qed.

Lemma lstrip_app_fixed (s t : pystr) :
  lstrip s = s → s ≠ [] → lstrip (s ++ t) = s ++ t.
Proof.
  intros H Hs. destruct s as [|c s]; [done|].
  apply lstrip_fixed. intros c' [= <-]. by apply (proj1 (lstrip_fixed _) H).
Qed.

Lemma rstrip_app_spaces (s sp : pystr) :
  Forall (λ c, isspace c = true) sp → rstrip (s ++ sp) = rstrip s.
Proof.
  intros H. unfold rstrip. rewrite rev_app_distr.
  by rewrite lstrip_app_spaces by (by apply Forall_rev).
Qed.

Lemma strip_padded (sp1 s sp2 : pystr) :
  Forall (λ c, isspace c = true) sp1 →
  Forall (λ c, isspace c = true) sp2 →
  strip s = s → s ≠ [] →
  strip (sp1 ++ s ++ sp2) = s.
Proof.
  intros H1 H2 Hs Hne.
  pose proof (lstrip_strip s) as Hl. pose proof (rstrip_strip s) as Hr.
  rewrite Hs in Hl, Hr. unfold strip.
  by rewrite lstrip_app_spaces, lstrip_app_fixed, rstrip_app_spaces.
Qed.

(** ** The parser on the layout that the prompt asks for *)

(** Membership of a character in a list that is written out. *)
Ltac not_in_list :=
  let H := fresh in
  intros H; vm_compute in H;
  repeat (apply elem_of_cons in H as [H|H]; [discriminate H|]);
  by apply elem_of_nil in H.

Lemma SUBJECT_absent_padded (subject : pystr) :
  ¬ occurs_in SUBJECT subject →
  ¬ occurs_in SUBJECT ([32] ++ subject ++ NL).
Proof.
  intros Hno H. apply Hno.
  change SUBJECT with (83 :: lit "ubject:"). apply (occurs_in_first_char _ _ [32]);
    [not_in_list|].
  change (83 :: lit "ubject:") with (lit "Subject" ++ [58]).
  apply (occurs_in_last_char _ _ _ NL); [not_in_list|].
  by rewrite <- app_assoc.
Qed.

Lemma BODY_absent_head (subject : pystr) :
  ¬ occurs_in BODY subject →
  ¬ occurs_in BODY ((SUBJECT ++ [32] ++ subject ++ NL) ++ lit "Body").
Proof.
  intros Hno H. apply Hno.
  change BODY with (66 :: lit "ody:").
  apply (occurs_in_first_char _ _ (SUBJECT ++ [32])); [not_in_list|].
  change (66 :: lit "ody:") with (lit "Body" ++ [58]).
  apply (occurs_in_last_char _ _ _ (NL ++ lit "Body")); [not_in_list|].
  by rewrite <- !app_assoc in *.
Qed.

(** X17: the parser reads back an e-mail laid out as the prompt asks:
    for a subject and a body that are not empty and carry no white space at
    their ends, the subject holding neither marker,
    "Subject: " + subject + "\n" + "Body: " + body is parsed into that
    subject and that body, whatever the body holds. *)
Theorem parse_requested_format (subject body : pystr) :
  subject ≠ [] → body ≠ [] →
  strip subject = subject → strip body = body →
  ¬ occurs_in SUBJECT subject → ¬ occurs_in BODY subject →
  parse_subject_body (requested_format subject body) = Ok (subject, body).
Proof.
  intros Hs Hb Hss Hsb HnoS HnoB. unfold requested_format.
  change (lit "Subject: ") with (SUBJECT ++ [32]).
  change (lit "Body: ") with (BODY ++ [32]).
  set (pre := SUBJECT ++ [32] ++ subject ++ NL).
  assert ((SUBJECT ++ [32]) ++ subject ++ NL ++ (BODY ++ [32]) ++ body
          = pre ++ BODY ++ [32] ++ body) as ->
    by (unfold pre; by rewrite <- !app_assoc).
  assert (find BODY (pre ++ BODY ++ [32] ++ body) = Some (length pre)) as Hf.
  { change BODY with (lit "Body" ++ [58]). apply find_at.
    change (lit "Body" ++ [58]) with BODY. by apply BODY_absent_head. }
  rewrite (parse_with_markers _ (length pre)); [|apply contains_spec|exact Hf].
  2: { exists [], ([32] ++ subject ++ NL ++ BODY ++ [32] ++ body).
       unfold pre. by rewrite <- !app_assoc. }
  cbv zeta. rewrite take_app_length.
  rewrite app_assoc, drop_app_length' by (by rewrite length_app).
  unfold pre. rewrite replace_front by done.
  rewrite replace_absent by (done || by apply SUBJECT_absent_padded).
  rewrite app_nil_l.
  rewrite (strip_padded [32] subject NL) by (done || by repeat constructor).
  replace ([32] ++ body) with ([32] ++ body ++ []) by (by rewrite app_nil_r).
  rewrite (strip_padded [32] body []) by (done || by repeat constructor).
  by destruct subject, body.
Qed.

Lemma parse_requested_format_witness :
  parse_subject_body (requested_format (lit "Leave Request") (lit "Dear Sir, ..."))
  = Ok (lit "Leave Request", lit "Dear Sir, ...").
Proof.
  apply (parse_requested_format (lit "Leave Request") (lit "Dear Sir, ...")).
  - discriminate.
  - discriminate.
  - vm_compute. reflexivity.
  - vm_compute. reflexivity.
  - apply contains_false. vm_compute. reflexivity.
  - apply contains_false. vm_compute. reflexivity.
Defined.

(** ** The parser on the fallback text *)

Lemma occurs_in_front (sub x rest : pystr) : occurs_in sub ((sub ++ x) ++ rest).
Proof. exists [], (x ++ rest). by rewrite <- app_assoc. Qed.

(** The template itself holds the two markers. *)
Lemma prompt_markers (f : form) :
  occurs_in SUBJECT (prompt f) ∧ occurs_in BODY (prompt f).
Proof.
  unfold prompt.
  change (lit "Subject: ...") with (SUBJECT ++ lit " ...").
  change (lit "Body: ...") with (BODY ++ lit " ...").
  split; repeat first [ apply occurs_in_front | apply occurs_in_skip ].
Qed.

Lemma fallback_text_occurs (sub prompt : pystr) (e : exn) :
  occurs_in sub prompt → occurs_in sub (fallback_text prompt e).
Proof.
  intros (pre & post & ->).
  exists (lit "(Fallback response)" ++ NL ++ NL
          ++ lit "Could not connect to Gemini. Prompt was:" ++ NL ++ pre),
         (post ++ NL ++ NL ++ lit "(Note: Fallback used due to: "
          ++ exn_str e ++ lit ")").
  unfold fallback_text, fallback_generation. by rewrite <- !app_assoc.
Qed.

Lemma fallback_text_ends (prompt : pystr) (e : exn) :
  (∃ rest, fallback_text prompt e = 40 :: rest) ∧
  last (fallback_text prompt e) = Some 41.
Proof.
  split; [by eexists|]. apply last_Some.
  exists (lit "(Fallback response)" ++ NL ++ NL
          ++ lit "Could not connect to Gemini. Prompt was:" ++ NL ++ prompt
          ++ NL ++ NL ++ lit "(Note: Fallback used due to: " ++ exn_str e).
  unfold fallback_text, fallback_generation. by rewrite <- !app_assoc.
Qed.

(** Stripping keeps a first character that is not white space. *)
Lemma strip_keeps_head (c : N) (x : pystr) :
  isspace c = false → ∃ y, strip (c :: x) = c :: y.
Proof.
  intros Hc. unfold strip. cbn [lstrip]. rewrite Hc.
  destruct (rstrip_decompose (c :: x)) as (sp & Heq & Hsp).
  destruct (rstrip (c :: x)) as [|c' y].
  - cbn [app] in Heq. subst sp. apply Forall_cons in Hsp as [Hsp _]. congruence.
  - injection Heq as <- _. eauto.
Qed.

(** X18: when the generation fails, the text that reaches the parser is
    the fallback text, which holds the prompt and with it the two markers of
    the template: the parser does not take its fallback; it cuts the text at
    the first "Body:" and returns a subject that begins with the opening
    bracket of "(Fallback response)", never "Generated Email". *)
Theorem parse_fallback_text (f : form) (e : exn) :
  ∃ head tail subject,
    first_split BODY (fallback_text (prompt f) e) head tail ∧
    parse_subject_body (fallback_text (prompt f) e)
    = Ok (40 :: subject, strip tail) ∧
    40 :: subject = strip (replace SUBJECT [] head) ∧
    strip tail ≠ [].
Proof.
  set (raw := fallback_text (prompt f) e).
  destruct (prompt_markers f) as [HS HB].
  apply (fallback_text_occurs _ _ e), contains_spec in HS, HB. fold raw in HS, HB.
  unfold contains in HB. destruct (find BODY raw) as [i|] eqn:Hf; [|done].
  destruct (find_Some _ _ _ Hf) as [Hsplit _].
  set (head := take i raw) in *. set (tail := drop (i + length BODY) raw) in *.
  destruct (fallback_text_ends (prompt f) e) as [[rest Hfirst] Hlast].
  fold raw in Hfirst, Hlast. pose proof (proj1 Hsplit) as Heq.
  (* the head begins with the bracket *)
  assert (∃ head', head = 40 :: head') as [head' Hhead].
  { rewrite Hfirst in Heq. destruct head as [|c head'].
    - discriminate Heq.
    - injection Heq as <- _. eauto. }
  (* the tail ends with the bracket *)
  assert (strip tail ≠ []) as Htail.
  { apply strip_nonempty. rewrite Heq, app_assoc, last_app in Hlast.
    destruct (last tail) as [c|] eqn:Hc.
    - injection Hlast as ->. apply last_Some_elem_of in Hc.
      apply Exists_exists. by exists 41.
    - rewrite last_app in Hlast. discriminate Hlast. }
  destruct (strip_keeps_head 40 (replace_from SUBJECT [] 0 head') eq_refl)
    as (subject & Hsubject).
  assert (strip (replace SUBJECT [] head) = 40 :: subject) as Hsubj
    by (by rewrite Hhead).
  exists head, tail, subject. split_and!; try done.
  rewrite (parse_with_markers raw i HS Hf). fold head tail. cbv zeta.
  rewrite Hsubj. by destruct (strip tail).
Qed.

(** ** The download link: failure and shape *)

Lemma utf8_char_not_scalar (c : N) :
  is_scalar c = false → utf8_char c = Raise UnicodeEncodeError.
Proof.
  intros H. unfold utf8_char. rewrite H. cbn [negb].
  assert (0xD800 <= c) as Hc.
  { destruct (N.le_gt_cases 0xD800 c) as [|Hlt]; [done|].
    rewrite (proj2 (is_scalar_bounds c)) in H by (left; lia). done. }
  by compare_N.
Qed.

(** Encoding succeeds on the strings that can be encoded and raises
    [UnicodeEncodeError] on the others. *)
Lemma str_encode_cases (s : pystr) :
  (encodable s ∧ ∃ bs, str_encode s = Ok bs)
  ∨ (¬ encodable s ∧ str_encode s = Raise UnicodeEncodeError).
Proof.
  induction s as [|c s IH]; [left; split; [constructor|by exists []]|].
  cbn [str_encode]. destruct (is_scalar c) eqn:Hc.
  - destruct (utf8_char_encodable c Hc) as (cs & ->). cbn [mbind outcome_bind].
    destruct IH as [[Hs (bs & ->)]|[Hs ->]].
    + left. split; [by constructor|]. cbn. eauto.
    + right. split; [|done]. by intros [_ ?]%Forall_cons.
  - right. rewrite (utf8_char_not_scalar c Hc). split; [|done].
    intros [? _]%Forall_cons. congruence.
Qed.

Lemma download_content_encodable (subject body : pystr) :
  encodable (download_content subject body) ↔ encodable subject ∧ encodable body.
Proof.
  unfold download_content, encodable. rewrite !Forall_app. split.
  - by intros (_ & ? & _ & _ & ?).
  - intros [? ?]. split_and!; try done.
    + apply encodable_lit.
    + by repeat constructor.
    + by repeat constructor.
Qed.

(** X19: [download_txt] raises exactly when the subject or the body holds
    a code point that UTF-8 cannot encode (a lone surrogate), and the
    exception is [UnicodeEncodeError]; otherwise it returns a link. *)
Theorem download_txt_raises_iff (subject body : pystr) :
  (download_txt subject body = Raise UnicodeEncodeError
   ↔ ¬ (encodable subject ∧ encodable body)) ∧
  ((∃ link, download_txt subject body = Ok link)
   ↔ encodable subject ∧ encodable body).
Proof.
  rewrite <- download_content_encodable.
  destruct (str_encode_cases (download_content subject body))
    as [[He (bs & Hbs)]|[He Hraise]].
  - rewrite (download_txt_encoded _ _ _ Hbs). split; split; try done.
    intros _. eauto.
  - unfold download_txt. cbv zeta. rewrite Hraise. cbn [mbind outcome_bind].
    split; split; try done. by intros [link ?].
Qed.

Lemma b64encode_length (bs : list byte) :
  length (b64encode bs) = (4 * ((length bs + 2) / 3))%nat.
Proof.
  induction bs as [|a|a b|a b c bs IH] using list_ind3; try reflexivity.
  cbn [b64encode length]. cbv zeta. cbn [length]. rewrite IH.
  replace (S (S (S (length bs))) + 2)%nat with (length bs + 2 + 1 * 3)%nat by lia.
  rewrite Nat.div_add by lia. lia.
Qed.

Lemma b64_char_alphabet (n : N) :
  n < 64 → is_b64_char (Byte.to_N (b64_char n)) = true.
Proof.
  intros Hn.
  exact (below_64 (λ n, is_b64_char (Byte.to_N (b64_char n))) eq_refl n Hn).
Qed.

Lemma b64encode_alphabet (bs : list byte) :
  Forall (λ c, is_b64_char (Byte.to_N c) = true) (b64encode bs).
Proof.
  induction bs as [|a|a b|a b c bs IH] using list_ind3; cbn [b64encode];
    cbv zeta; repeat apply Forall_cons_2; try done;
    try (apply b64_char_alphabet;
         pose proof (to_N_lt_256 a); try pose proof (to_N_lt_256 b);
         try pose proof (to_N_lt_256 c); divmod).
Qed.

(** X20: when the subject and the body can be encoded, the payload of the
    link holds only letters, digits, "+", "/" and "=", so that it cannot
    close the quoted attribute it stands in, and it has four characters for
    every three bytes of the text, rounded up. *)
Theorem download_txt_payload_shape (subject body : pystr) :
  encodable subject → encodable body →
  ∃ payload content,
    download_txt subject body = Ok (LINK_HEAD ++ payload ++ LINK_TAIL) ∧
    str_encode (lit "Subject: " ++ subject ++ NL ++ NL ++ body) = Ok content ∧
    Forall (λ c, is_b64_char c = true) payload ∧
    (∀ c, c ∈ QUOTE → c ∉ payload) ∧
    length payload = (4 * ((length content + 2) / 3))%nat.
Proof.
  intros Hs Hb.
  destruct (str_encode_cases (download_content subject body))
    as [[_ (content & Hc)]|[He _]].
  2: { destruct He. by apply download_content_encodable. }
  exists (map Byte.to_N (b64encode content)), content.
  assert (Forall (λ c, is_b64_char c = true) (map Byte.to_N (b64encode content)))
    as Halpha by (apply Forall_map, b64encode_alphabet).
  split_and!; try done.
  - by apply download_txt_encoded.
  - intros c ->%list_elem_of_singleton Hin.
    rewrite Forall_forall in Halpha. by apply Halpha in Hin.
  - by rewrite length_map, b64encode_length.
Qed.

Lemma download_txt_payload_shape_witness :
  ∃ payload content,
    download_txt (lit "Hi") (lit "Hello")
    = Ok (LINK_HEAD ++ payload ++ LINK_TAIL) ∧
    str_encode (lit "Subject: " ++ lit "Hi" ++ NL ++ NL ++ lit "Hello")
    = Ok content ∧
    Forall (λ c, is_b64_char c = true) payload ∧
    (∀ c, c ∈ QUOTE → c ∉ payload) ∧
    length payload = (4 * ((length content + 2) / 3))%nat.
Proof.
  apply (download_txt_payload_shape (lit "Hi") (lit "Hello")).
  - apply encodable_lit.
  - apply encodable_lit.
Defined.

(** ** Subject line suggestions *)

(** The lines of [splitlines] hold no line break. *)
Lemma splitlines_from_no_break (after_cr : bool) (cur s : pystr) :
  Forall (λ c, is_linebreak c = false) cur →
  Forall (Forall (λ c, is_linebreak c = false)) (splitlines_from after_cr cur s).
Proof.
  revert after_cr cur. induction s as [|c s IH]; intros after_cr cur Hcur.
  - cbn. destruct cur; [constructor|]. constructor; [done|constructor].
  - cbn [splitlines_from]. destruct (after_cr && (c =? 10)); [by apply IH|].
    destruct (is_linebreak c) eqn:Hc.
    + constructor; [done|]. by apply IH.
    + apply IH. apply Forall_app. split; [done|]. constructor; [done|constructor].
Qed.

(** The lines of [splitlines] are pieces of the text. *)
Lemma splitlines_from_occurs (after_cr : bool) (cur s line : pystr) :
  (after_cr = true → cur = []) →
  line ∈ splitlines_from after_cr cur s → occurs_in line (cur ++ s).
Proof.
  revert after_cr cur. induction s as [|c s IH]; intros after_cr cur Hcr.
  - cbn. destruct cur as [|x cur]; [by intros ?%elem_of_nil|].
    intros ->%list_elem_of_singleton. exists [], []. by rewrite app_nil_r.
  - cbn [splitlines_from]. destruct (after_cr && (c =? 10)) eqn:Hskip.
    + apply andb_true_iff in Hskip as [-> _]. rewrite (Hcr eq_refl).
      intros Hin. apply (IH false []) in Hin; [|done].
      by apply (occurs_in_skip [c]).
    + destruct (is_linebreak c) eqn:Hc.
      * intros [->|Hin]%elem_of_cons.
        -- by exists [], (c :: s).
        -- apply (IH _ []) in Hin; [|done].
           by apply occurs_in_skip, (occurs_in_skip [c]).
      * intros Hin. apply (IH false (cur ++ [c])) in Hin; [|done].
        by rewrite <- app_assoc in Hin.
Qed.

Lemma lstrip_chars_decompose (chars s : pystr) :
  ∃ sp, s = sp ++ lstrip_chars chars s.
Proof.
  induction s as [|c s (sp & Hs)]; [by exists []|]. cbn [lstrip_chars].
  destruct (bool_decide (c ∈ chars)).
  - exists (c :: sp). cbn. by f_equal.
  - by exists [].
Qed.

Lemma lstrip_chars_head (chars s t : pystr) (c : N) :
  lstrip_chars chars s = c :: t → c ∉ chars.
Proof.
  induction s as [|x s IH]; cbn [lstrip_chars]; [done|].
  destruct (bool_decide_reflect (x ∈ chars)); [done|]. by intros [= <- _].
Qed.

(** What is left by [strip(chars)] is a piece of the string between two
    removed ends. *)
Lemma strip_chars_decompose (chars s : pystr) :
  ∃ sp1 sp2, s = sp1 ++ strip_chars chars s ++ sp2.
Proof.
  destruct (lstrip_chars_decompose chars s) as (sp1 & Hs1).
  destruct (lstrip_chars_decompose chars (rev (lstrip_chars chars s)))
    as (sp2 & Hs2).
  exists sp1, (rev sp2). unfold strip_chars.
  by rewrite <- rev_app_distr, <- Hs2, rev_involutive.
Qed.

(** It neither begins nor ends with one of the characters. *)
Lemma strip_chars_ends (chars s : pystr) (c : N) :
  head (strip_chars chars s) = Some c ∨ last (strip_chars chars s) = Some c →
  c ∉ chars.
Proof.
  unfold strip_chars. intros [H|H].
  - destruct (lstrip_chars_decompose chars (rev (lstrip_chars chars s)))
      as (sp2 & Hs2).
    apply (f_equal (@rev N)) in Hs2.
    rewrite rev_involutive, rev_app_distr in Hs2.
    destruct (rev (lstrip_chars chars (rev (lstrip_chars chars s))))
      as [|c' u]; [done|].
    injection H as ->. by apply lstrip_chars_head in Hs2.
  - rewrite <- head_rev, rev_involutive in H.
    destruct (lstrip_chars chars (rev (lstrip_chars chars s))) as [|c' u] eqn:E;
      [done|].
    injection H as ->. by apply lstrip_chars_head in E.
Qed.

Lemma occurs_in_trans (a b c : pystr) :
  occurs_in a b → occurs_in b c → occurs_in a c.
Proof.
  intros (p1 & q1 & ->) (p2 & q2 & ->). exists (p2 ++ p1), (q1 ++ q2).
  by rewrite <- !app_assoc.
Qed.

Lemma suggestion_items_of_elem (lines : list pystr) (item : pystr) :
  item ∈ suggestion_items_of lines →
  ∃ line, line ∈ lines ∧ strip_chars BULLETS line ≠ [] ∧
          item = lit "- " ++ strip_chars BULLETS line.
Proof.
  induction lines as [|line lines IH]; cbn [suggestion_items_of];
    [by intros ?%elem_of_nil|].
  cbv zeta. destruct (truthy (strip_chars BULLETS line)) eqn:Ht.
  - intros [->|Hin]%elem_of_cons.
    + exists line. split_and!; [apply list_elem_of_here| |done].
      by apply truthy_nonempty.
    + destruct (IH Hin) as (l & ? & ? & ?). exists l.
      split_and!; [by apply list_elem_of_further|done..].
  - intros Hin. destruct (IH Hin) as (l & ? & ? & ?). exists l.
    split_and!; [by apply list_elem_of_further|done..].
Qed.

(** X21: every suggestion put on the page is "- " followed by a text that
    is not empty, is a piece of one line of the answer of the service, holds
    no line break, and neither begins nor ends with a dash, a bullet or a
    space. *)
Theorem suggestion_items_clean (suggestions_raw item : pystr) :
  item ∈ suggestion_items suggestions_raw →
  ∃ text,
    item = lit "- " ++ text ∧ text ≠ [] ∧
    occurs_in text suggestions_raw ∧
    Forall (λ c, is_linebreak c = false) text ∧
    (∀ c, head text = Some c ∨ last text = Some c → c ∉ BULLETS).
Proof.
  intros (line & Hline & Hne & ->)%suggestion_items_of_elem.
  exists (strip_chars BULLETS line).
  destruct (strip_chars_decompose BULLETS line) as (sp1 & sp2 & Hdec).
  split_and!; try done.
  - apply (occurs_in_trans _ line).
    + by exists sp1, sp2.
    + by apply (splitlines_from_occurs false [] suggestions_raw).
  - pose proof (splitlines_from_no_break false [] suggestions_raw
                  (Forall_nil_2 _)) as Hall.
    rewrite Forall_forall in Hall. specialize (Hall line Hline).
    rewrite Hdec, !Forall_app in Hall. by destruct Hall as (_ & ? & _).
  - apply strip_chars_ends.
Qed.

Lemma suggestion_items_clean_witness :
  ∃ text,
    lit "- Request for leave" = lit "- " ++ text ∧ text ≠ [] ∧
    occurs_in text (lit "1. A" ++ NL ++ [0x2022] ++ lit " Request for leave -") ∧
    Forall (λ c, is_linebreak c = false) text ∧
    (∀ c, head text = Some c ∨ last text = Some c → c ∉ BULLETS).
Proof.
  apply (suggestion_items_clean
           (lit "1. A" ++ NL ++ [0x2022] ++ lit " Request for leave -")
           (lit "- Request for leave")).
  vm_compute. apply list_elem_of_further, list_elem_of_here.
Defined.

(** The page shows at most one suggestion for each line of the answer. *)
Lemma suggestion_items_of_length (lines : list pystr) :
  (length (suggestion_items_of lines) ≤ length lines)%nat.
Proof.
  induction lines as [|line lines IH]; [done|]. cbn [suggestion_items_of].
  cbv zeta. destruct (truthy (strip_chars BULLETS line)); cbn [length]; lia.
Qed.

(** ** The "Generate Email" button *)

(** The adapter always returns, and acts on the log and the calls only. *)
Lemma generate_with_gemini_runs (generate_content : content → outcome response)
    (prompt : pystr) (system_instruction : option pystr) (w : world) :
  ∃ s w',
    generate_with_gemini generate_content prompt system_instruction w
    = (Ok s, w') ∧
    users w' = users w ∧ faults w' = faults w ∧ shown w' = shown w.
Proof.
  destruct (generate_content (gemini_request prompt system_instruction))
    as [r|e] eqn:Hg.
  - destruct (text r) as [t|e] eqn:Ht.
    + rewrite (generate_with_gemini_success _ _ _ _ _ _ Hg Ht). by eexists _, _.
    + rewrite (generate_with_gemini_except generate_content prompt
                 system_instruction e w) by eauto.
      by eexists _, _.
  - rewrite (generate_with_gemini_except generate_content prompt
               system_instruction e w) by eauto.
    by eexists _, _.
Qed.

Section Generate_properties.
Variable generate_content : content → outcome response.


(** X23: the download link is built before the e-mail is saved: when the
    subject or the body read in the generated text cannot be encoded,
    pressing "Generate Email" raises [UnicodeEncodeError] and nothing is
    saved, in any state of the store. *)
Theorem generate_email_unencodable (f : form) (user raw subject body : pystr)
    (w w0 : world) :
  generate_with_gemini generate_content (prompt f) None w = (Ok raw, w0) →
  parse_subject_body raw = Ok (subject, body) →
  ¬ (encodable subject ∧ encodable body) →
  generate_email generate_content f user w = (Raise UnicodeEncodeError, w0) ∧
  users w0 = users w.
Proof.
  intros Hgen Hparse Hno.
  destruct (generate_with_gemini_runs generate_content (prompt f) None w)
    as (raw' & w0' & Hgen' & Hu0 & _).
  rewrite Hgen in Hgen'. injection Hgen' as <- <-. split; [|done].
  assert (download_txt subject body = Raise UnicodeEncodeError) as Hraise.
  { destruct (str_encode_cases (download_content subject body))
      as [[He _]|[_ Hraise]].
    - destruct Hno. by apply download_content_encodable.
    - unfold download_txt. cbv zeta. by rewrite Hraise. }
  unfold generate_email. unfold mbind, M_bind, lift.
  by rewrite Hgen, Hparse, Hraise.
Qed.
End Generate_properties.


Lemma generate_email_unencodable_witness :
  generate_email surrogate_service blank_form (lit "a@b.pk") one_email_world
  = (Raise UnicodeEncodeError,
     with_calls one_email_world [CallGenerateContent]) ∧
  users (with_calls one_email_world [CallGenerateContent])
  = users one_email_world.
Proof.
  apply (generate_email_unencodable surrogate_service blank_form (lit "a@b.pk")
           [0xD800] GENERATED_EMAIL [0xD800] one_email_world
           (with_calls one_email_world [CallGenerateContent])).
  - reflexivity.
  - vm_compute. reflexivity.
  - intros [_ H]. apply Forall_cons in H as [H _]. vm_compute in H. discriminate H.
Defined.

(** ** The size of the prompt *)

(** X24: the document text adds at most its label and 1000 characters to
    the prompt, however long it is: the prompt is as long as the prompt
    without document text plus the clause. *)
Theorem prompt_length_bound (f : form) :
  length (prompt f)
  = (length (prompt (with_cv_text f [])) + length (cv_clause (cv_text f)))%nat ∧
  (length (prompt f)
   ≤ length (prompt (with_cv_text f [])) + length CV_LABEL + 1000)%nat.
Proof.
  assert (length (prompt f)
          = (length (prompt (with_cv_text f []))
             + length (cv_clause (cv_text f)))%nat) as Heq.
  { unfold prompt.
    cbn [with_cv_text student_name recipient purpose details tone style
         formality_level language cv_text].
    rewrite !length_app. change (length (cv_clause [])) with 0%nat. lia. }
  split; [done|]. pose proof (cv_clause_length (cv_text f)). lia.
Qed.

(** ** Session *)

Section Auth_properties.
Variable create_user : pystr → pystr → outcome unit.
Variable sign_in : pystr → pystr → outcome unit.



(** X26: a signup or a login that the identity service refuses is caught:
    the run returns normally, the session is as before, and the page shows
    one error made of a cross, a space and the text of the exception. *)
Theorem auth_section_refused (user : option pystr) (v : visit) (e : exn)
    (w : world) :
  logged_in user = false → button v = true →
  (choice v = lit "Signup" ∧
   create_user (email_input v) (password_input v) = Raise e)
  ∨ (choice v = lit "Login" ∧
     sign_in (email_input v) (password_input v) = Raise e) →
  auth_section create_user sign_in user v w
  = (Ok user, with_shown w (shown w ++ [StError (CROSS ++ lit " " ++ exn_str e)])).
Proof.
  intros Hu Hb [[Hc Hr]|[Hc Hr]]; unfold auth_section; rewrite Hu, Hb, Hc;
    cbn [negb andb]; [rewrite bool_decide_eq_true_2 by done|
                      rewrite bool_decide_eq_false_2 by done;
                      rewrite bool_decide_eq_true_2 by done];
    cbn [andb]; run_M; by rewrite Hr.
Qed.
End Auth_properties.

Lemma auth_section_refused_witness :
  auth_section one_account one_account None
    (Visit (lit "Login") (lit "a@b.pk") (lit "guess") true) initial_world
  = (Ok None,
     with_shown initial_world
       (shown initial_world
        ++ [StError (CROSS ++ lit " "
                     ++ exn_str (Exn (lit "HTTPError")
                                   (lit "INVALID_LOGIN_CREDENTIALS")))])).
Proof.
  apply (auth_section_refused one_account one_account None
           (Visit (lit "Login") (lit "a@b.pk") (lit "guess") true)
           (Exn (lit "HTTPError") (lit "INVALID_LOGIN_CREDENTIALS"))
           initial_world).
  - reflexivity.
  - reflexivity.
  - right. split; reflexivity.
Defined.

Example session_login :
  (session one_account one_account None
     [Visit (lit "Login") (lit "a@b.pk") (lit "guess") true;
      Visit (lit "Signup") (lit "c@d.pk") (lit "secret") true;
      Visit (lit "Login") (lit "a@b.pk") (lit "secret") true]
     initial_world).1
  = Ok (Some (lit "a@b.pk")).
Proof. vm_compute. reflexivity. Qed.
